(** * Rate limiting gate of the earnings-call collector

    A shallow embedding of [utils/ratelimit_utils.py] and
    [utils/exception.py]: the fixed-window call counter [RateLimit], the
    blocking retry wrapper [sleep_and_retry], and the exception that links
    them.

    Modelling conventions.
    - Clock readings and durations are exact integers ([Z]): ticks of the
      monotonic clock at its resolution.  Rounding of Python floats is not
      modelled.
    - The monotonic clock is an oracle owned by the environment: the
      sequence of its successive readings.  Each call of the clock
      consumes one reading.
    - The wrapped operation acts on a store of its own and either returns
      a value or raises; every execution is recorded in a trace, as is
      every warning logged and every call of the sleep primitive.

    On top of the gate come its users: [years_dict] and [merge_list_dict]
    of [utils/api_utils.py], the class [Roic_API] of [API/roic_api.py]
    that sends every request through [api_request], and the cleaning of
    links in [google_href] of [__main__.py].
    - The values are those of JSON data; a dictionary is a list of keys
      and values in insertion order.
    - The dictionaries that [years_dict] changes in place are objects in
      a heap, named by references.
    - The pages loaded in a browser and the responses of the site are
      parameters. *)

From Stdlib Require Import ZArith List Bool Lia.
From Stdlib Require Ascii.
From Stdlib Require String.
Import ListNotations String.StringSyntax Ascii.AsciiSyntax.
Delimit Scope char_scope with char.
Open Scope string_scope.
Open Scope Z_scope.

Set Implicit Arguments.

(** ** utils/exception.py *)

Record RateLimitException : Type := mkRateLimitException
  { time_remaining : Z;
    message : String.string }.

(** [RateLimitException.__init__(time_remaining, message=...)]. *)
Definition RateLimitException_init (time_remaining : Z) : RateLimitException :=
  mkRateLimitException time_remaining "API calls have reached rate limit.".

Section Gate.

(** What the wrapped operation takes, returns, raises and acts on. *)
Context {Args Data Err Store : Type}.

(** Exceptions that can travel through the wrappers. [ValueError] is what
    [time.sleep] raises on a negative duration. *)
Inductive exn : Type :=
| RateLimitExc (e : RateLimitException)
| ValueError (msg : String.string)
| OtherExc (e : Err).

Inductive value : Type :=
| PyNone
| PyData (d : Data).

Inductive outcome : Type :=
| Return (v : value)
| Raise (e : exn).

(** Observable events, oldest first. *)
Inductive event : Type :=
| Called (a : Args) (o : outcome)
| Warned (e : RateLimitException)
| Slept (d : Z).

Record World : Type := mkWorld
  { mono : nat -> Z;
    reads : nat;
    trace : list event;
    store : Store }.

(** [time.monotonic()]. *)
Definition time_monotonic (w : World) : Z * World :=
  (mono w (reads w),
   mkWorld (mono w) (S (reads w)) (trace w) (store w)).

Definition emit (e : event) (w : World) : World :=
  mkWorld (mono w) (reads w) (trace w ++ [e]) (store w).

(** [threading.RLock]: the owning thread, if any, and how many times it
    has acquired the lock. *)
Record RLock : Type := mkRLock
  { owner : option nat;
    depth : nat }.

Definition RLock_free (l : RLock) (me : nat) : bool :=
  match owner l with
  | None => true
  | Some t => Nat.eqb t me
  end.

Definition RLock_acquire (me : nat) (l : RLock) : RLock :=
  mkRLock (Some me) (S (depth l)).

Definition RLock_release (l : RLock) : RLock :=
  match depth l with
  | S (S d) => mkRLock (owner l) (S d)
  | _ => mkRLock None 0
  end.

(** The lock is free, or held by [me] alone. *)
Definition RLock_mine (me : nat) (l : RLock) : bool :=
  match owner l, depth l with
  | None, O => true
  | Some t, S _ => Nat.eqb t me
  | _, _ => false
  end.

(** ** utils/ratelimit_utils.py: class RateLimit *)

Record RateLimit : Type := mkRateLimit
  { calls : Z;
    interval : Z;
    clock : World -> Z * World;
    raise_on_limit : bool;
    last_reset : Z;
    num_calls : Z;
    lock : RLock }.

Definition set_num_calls (n : Z) (r : RateLimit) : RateLimit :=
  mkRateLimit (calls r) (interval r) (clock r) (raise_on_limit r)
              (last_reset r) n (lock r).

Definition set_last_reset (t : Z) (r : RateLimit) : RateLimit :=
  mkRateLimit (calls r) (interval r) (clock r) (raise_on_limit r)
              t (num_calls r) (lock r).

Definition set_lock (l : RLock) (r : RateLimit) : RateLimit :=
  mkRateLimit (calls r) (interval r) (clock r) (raise_on_limit r)
              (last_reset r) (num_calls r) l.

(** The program state: the one [RateLimit] object shared by every call of
    the decorated function, and the world around it. *)
Record State : Type := mkState
  { self : RateLimit;
    world : World }.

(** [RateLimit.__init__(calls, interval, raise_on_limit)]. *)
Definition RateLimit_init (calls interval : Z) (raise_on_limit : bool)
           (w : World) : State :=
  let '(now, w) := time_monotonic w in
  mkState (mkRateLimit calls interval time_monotonic raise_on_limit
                       now 0 (mkRLock None 0))
          w.

(** The limiter reads the clock [__init__] gave it. *)
Definition monotonic_clock (s : State) : Prop :=
  clock (self s) = time_monotonic.

(** The thread that runs the sequential model. *)
Definition main_thread : nat := 0%nat.

(** How control leaves the [with self.lock:] block of the wrapper. *)
Inductive block_exit : Type :=
| FallThrough
| ReturnNone
| Raised (e : RateLimitException).

(** [self.clock()] *)
Definition call_clock (s : State) : Z * State :=
  let '(t, w) := clock (self s) (world s) in
  (t, mkState (self s) w).

(** [if self.num_calls > self.calls:] and what follows it inside the
    block: raise, return nothing, or leave the block. *)
Definition limit_test (r : RateLimit) (period_remaining : Z) : block_exit :=
  if num_calls r >? calls r then
    if raise_on_limit r
    then Raised (RateLimitException_init period_remaining)
    else ReturnNone
  else FallThrough.

(** The body of [with self.lock:] in [RateLimit.__call__.wrapper], lock
    acquired on entry and released on every exit. *)
Definition locked_block (s : State) : block_exit * State :=
  let s := mkState (set_lock (RLock_acquire main_thread (lock (self s))) (self s))
                   (world s) in
  let '(now, s) := call_clock s in
  let elapsed := now - last_reset (self s) in
  let period_remaining := interval (self s) - elapsed in
  let s :=
    if period_remaining <=? 0 then
      let s := mkState (set_num_calls 0 (self s)) (world s) in
      let '(now', s) := call_clock s in
      mkState (set_last_reset now' (self s)) (world s)
    else s in
  let s := mkState (set_num_calls (num_calls (self s) + 1) (self s)) (world s) in
  (limit_test (self s) period_remaining,
   mkState (set_lock (RLock_release (lock (self s))) (self s)) (world s)).

(** The operation being decorated: it acts on its own store. *)
Definition operation : Type := Args -> Store -> outcome * Store.

(** A call of the undecorated operation with the arguments it was given,
    recorded in the trace. *)
Definition call (op : operation) (a : Args) (s : State) : outcome * State :=
  let '(o, st) := op a (store (world s)) in
  let w := world s in
  (o, mkState (self s)
              (emit (Called a o) (mkWorld (mono w) (reads w) (trace w) st))).

(** A decorated function: it sees the whole program state. *)
Definition func_t : Type := Args -> State -> outcome * State.

(** [RateLimit.__call__(func)] gives [wrapper]. *)
Definition RateLimit_wrapper (func : func_t) : func_t :=
  fun a s =>
    match locked_block s with
    | (Raised e, s) => (Raise (RateLimitExc e), s)
    | (ReturnNone, s) => (Return PyNone, s)
    | (FallThrough, s) => func a s
    end.

(** [logging.warning(...)] of the retry wrapper. *)
Definition logging_warning (e : RateLimitException) (s : State) : State :=
  mkState (self s) (emit (Warned e) (world s)).

(** [time.sleep(secs)]: the call is recorded; a negative duration raises
    [ValueError]. *)
Definition time_sleep (secs : Z) (s : State) : option exn * State :=
  let s := mkState (self s) (emit (Slept secs) (world s)) in
  if secs <? 0
  then (Some (ValueError "sleep length must be non-negative"), s)
  else (None, s).

(** [sleep_and_retry(func)] gives [wrapper]: [while True] is unrolled at
    most [fuel] times; [None] means the loop is still running. *)
Fixpoint sleep_and_retry (fuel : nat) (func : func_t) (a : Args) (s : State)
  : option (outcome * State) :=
  match fuel with
  | O => None
  | S fuel =>
      match func a s with
      | (Raise (RateLimitExc exception), s) =>
          let s := logging_warning exception s in
          match time_sleep (time_remaining exception) s with
          | (Some e, s) => Some (Raise e, s)
          | (None, s) => sleep_and_retry fuel func a s
          end
      | (o, s) => Some (o, s)
      end
  end.

(** ** Runs of the decorated function *)

(** Time since the last reset, as the next attempt will measure it. *)
Definition elapsed_now (s : State) : Z :=
  fst (clock (self s) (world s)) - last_reset (self s).

(** The state after calling [f] once for each element of [l]. *)
Fixpoint run (f : func_t) (l : list Args) (s : State) : State :=
  match l with
  | [] => s
  | a :: l => run f l (snd (f a s))
  end.

(** Every attempt of the run is made before the window elapses. *)
Fixpoint within_window (f : func_t) (l : list Args) (s : State) : bool :=
  match l with
  | [] => true
  | a :: l => (elapsed_now s <? interval (self s)) && within_window f l (snd (f a s))
  end.

(** The state in which the retry wrapper re-attempts after rejection [e]
    left the decorated function in state [s]. *)
Definition after_sleep (e : RateLimitException) (s : State) : State :=
  mkState (self s)
          (emit (Slept (time_remaining e)) (emit (Warned e) (world s))).

(** The events of one rejected iteration of the retry wrapper. *)
Definition rejection_events (e : RateLimitException) : list event :=
  [Warned e; Slept (time_remaining e)].

(** The state after [n] iterations of the retry wrapper that were all
    rejected with a duration the sleep primitive accepts, if that is how
    the first [n] iterations go. *)
Fixpoint after_rejections (n : nat) (func : func_t) (a : Args) (s : State)
  : option State :=
  match n with
  | O => Some s
  | S n =>
      match func a s with
      | (Raise (RateLimitExc e), s1) =>
          if time_remaining e <? 0 then None
          else after_rejections n func a (after_sleep e s1)
      | _ => None
      end
  end.

(** The operation never raises the rate limit exception itself. *)
Definition own_failures_only (op : operation) : Prop :=
  forall a st e, fst (op a st) <> Raise (RateLimitExc e).

(** ** Threads racing on the wrapper

    Each thread runs the [with self.lock:] block of the wrapper one
    statement at a time; a scheduler picks which thread moves next.  The
    program counter holds the local variable [period_remaining] once it
    has been computed. *)

Inductive pc : Type :=
| AtAcquire
| AtElapsed
| AtWindowTest (period_remaining : Z)
| AtResetCount (period_remaining : Z)
| AtResetStart (period_remaining : Z)
| AtIncrement (period_remaining : Z)
| AtLimitTest (period_remaining : Z)
| Finished (x : block_exit).

(** One statement of thread [t]; [None] when the thread cannot move: it
    waits for the lock, or it has left the block. *)
Definition thread_step (t : nat) (p : pc) (s : State) : option (pc * State) :=
  match p with
  | AtAcquire =>
      if RLock_free (lock (self s)) t
      then Some (AtElapsed,
                 mkState (set_lock (RLock_acquire t (lock (self s))) (self s))
                         (world s))
      else None
  | AtElapsed =>
      let '(now, s) := call_clock s in
      let elapsed := now - last_reset (self s) in
      Some (AtWindowTest (interval (self s) - elapsed), s)
  | AtWindowTest period_remaining =>
      Some (if period_remaining <=? 0
            then AtResetCount period_remaining
            else AtIncrement period_remaining, s)
  | AtResetCount period_remaining =>
      Some (AtResetStart period_remaining,
            mkState (set_num_calls 0 (self s)) (world s))
  | AtResetStart period_remaining =>
      let '(now', s) := call_clock s in
      Some (AtIncrement period_remaining,
            mkState (set_last_reset now' (self s)) (world s))
  | AtIncrement period_remaining =>
      Some (AtLimitTest period_remaining,
            mkState (set_num_calls (num_calls (self s) + 1) (self s)) (world s))
  | AtLimitTest period_remaining =>
      Some (Finished (limit_test (self s) period_remaining),
            mkState (set_lock (RLock_release (lock (self s))) (self s)) (world s))
  | Finished _ => None
  end.

(** A thread run on its own for at most [fuel] statements. *)
Fixpoint thread_run (fuel : nat) (t : nat) (p : pc) (s : State) : pc * State :=
  match fuel with
  | O => (p, s)
  | S fuel =>
      match thread_step t p s with
      | Some (p, s) => thread_run fuel t p s
      | None => (p, s)
      end
  end.

Record System : Type := mkSystem
  { threads : list pc;
    shared : State }.

Fixpoint set_pc (t : nat) (p : pc) (l : list pc) : list pc :=
  match l, t with
  | [], _ => []
  | _ :: l, O => p :: l
  | q :: l, S t => q :: set_pc t p l
  end.

(** The scheduler lets thread [t] move; nothing happens when it cannot. *)
Definition sys_step (t : nat) (sys : System) : System :=
  match nth_error (threads sys) t with
  | Some p =>
      match thread_step t p (shared sys) with
      | Some (p', s') => mkSystem (set_pc t p' (threads sys)) s'
      | None => sys
      end
  | None => sys
  end.

(** A schedule: the threads in the order in which they move. *)
Fixpoint exec (sched : list nat) (sys : System) : System :=
  match sched with
  | [] => sys
  | t :: sched => exec sched (sys_step t sys)
  end.

Definition in_block (p : pc) : bool :=
  match p with
  | AtAcquire | Finished _ => false
  | _ => true
  end.

Definition is_finished (p : pc) : bool :=
  match p with
  | Finished _ => true
  | _ => false
  end.

(** The thread left the block towards the call of the wrapped function. *)
Definition is_granted (p : pc) : bool :=
  match p with
  | Finished FallThrough => true
  | _ => false
  end.

(** The thread left the block without reaching the wrapped function. *)
Definition is_refused (p : pc) : bool :=
  match p with
  | Finished FallThrough => false
  | Finished _ => true
  | _ => false
  end.

(** The thread is about to compare the count with the limit. *)
Definition at_limit (p : pc) : bool :=
  match p with
  | AtLimitTest _ => true
  | _ => false
  end.

(** The thread has not seen the window elapse. *)
Definition same_window (p : pc) : bool :=
  match p with
  | AtWindowTest period_remaining => 0 <? period_remaining
  | AtResetCount _ | AtResetStart _ => false
  | _ => true
  end.

Definition count (f : pc -> bool) (l : list pc) : nat :=
  length (filter f l).

(** The lock is held exactly when one thread is in the block, by a thread
    that is in the block. *)
Definition lock_inv (thr : list pc) (l : RLock) : Prop :=
  (count in_block thr = 0%nat /\ l = mkRLock None 0) \/
  (count in_block thr = 1%nat /\
   exists t p, l = mkRLock (Some t) 1 /\
               nth_error thr t = Some p /\ in_block p = true).

(** What holds of [n] threads racing inside one window of a limiter with
    [calls = m]: the lock is held exactly when one thread is in the
    block, the count is the number of threads that incremented it, and
    the grants are the first [m] exits. *)
Definition race_inv (m : nat) (d t0 : Z) (b : bool) (clk : nat -> Z)
           (sys : System) : Prop :=
  let r := self (shared sys) in
  let thr := threads sys in
  (calls r = Z.of_nat m /\ interval r = d /\ raise_on_limit r = b /\
   clock r = time_monotonic /\ last_reset r = t0 /\
   mono (world (shared sys)) = clk) /\
  forallb same_window thr = true /\
  num_calls r = Z.of_nat (count is_finished thr + count at_limit thr) /\
  count is_granted thr = Nat.min (count is_finished thr) m /\
  lock_inv thr (lock r).

(** [n] threads about to call the wrapper of a limiter just built. *)
Definition race (n : nat) (calls interval : Z) (raise_on_limit : bool)
           (w : World) : System :=
  mkSystem (repeat AtAcquire n) (RateLimit_init calls interval raise_on_limit w).

End Gate.

(** ** A concrete operation and clocks *)

Module Sample.

(** The clock that gives the readings of [l] in turn, then stays at the
    last of them. *)
Definition clock_of (l : list Z) : nat -> Z :=
  fun i => nth i l (last l 0).

Definition sample_world (readings : list Z) : @World unit Z String.string nat :=
  mkWorld (clock_of readings) 0 [] 0%nat.

(** An operation that counts its executions and returns the count. *)
Definition fetch : @operation unit Z String.string nat :=
  fun _ st => (Return (PyData (Z.of_nat (S st))), S st).

(** An operation that fails. *)
Definition broken : @operation unit Z String.string nat :=
  fun _ st => (Raise (OtherExc "HTTPError"), S st).

(** An operation rate-limited by [RateLimit]. *)
Definition gated (op : @operation unit Z String.string nat) :=
  RateLimit_wrapper (call op).

(** The decoration of [api_request] in [utils/api_utils.py]. *)
Definition api_request (fuel : nat) (op : @operation unit Z String.string nat) :=
  sleep_and_retry fuel (gated op).

(** [calls = 2], [interval = 10]: built at time 0, called at times 0, 1
    and 2, then again at time 10. *)
Definition limiter_2_10 (rol : bool) :=
  RateLimit_init 2 10 rol (sample_world [0; 0; 1; 2; 10; 10; 11]).

Definition after_two (rol : bool) := run (gated fetch) [tt; tt] (limiter_2_10 rol).

(** What the retry wrapper gives on the third call, if it ends within
    five iterations. *)
Definition third_call : outcome * State :=
  match api_request 5 fetch tt (after_two true) with
  | Some r => r
  | None => (Return PyNone, after_two true)
  end.

(** The state in which the retry wrapper re-attempts the third call,
    refused with 8 left. *)
Definition after_one_rejection : State :=
  after_sleep (RateLimitException_init 8) (snd (locked_block (after_two true))).

(** [calls = 0], [interval = 10]: built at time 0, called at times 3 and
    12. *)
Definition limiter_0_10 :=
  RateLimit_init 0 10 true (sample_world [0; 3; 12; 12; 13]).

(** Three threads, one slot, a schedule that interleaves them. *)
Definition schedule : list nat :=
  [1; 0; 2; 1; 1; 0; 1; 1; 2; 0; 2; 0; 2; 0; 2; 0; 2; 0; 0; 0; 0; 0]%nat.

End Sample.

(** ** What the threads have left to do *)

(** The statements a thread has at most left before it is out of the
    block. *)
Definition steps_left (p : pc) : nat :=
  match p with
  | AtAcquire => 7
  | AtElapsed => 6
  | AtWindowTest _ => 5
  | AtResetCount _ => 4
  | AtResetStart _ => 3
  | AtIncrement _ => 2
  | AtLimitTest _ => 1
  | Finished _ => 0
  end.

Definition work_left (thr : list pc) : nat :=
  fold_right (fun p n => (steps_left p + n)%nat) 0%nat thr.

(** ** Python values, dictionaries and objects

    The values the collector handles are what [json.loads] gives for the
    site's data: [None], integers, strings and lists of these.  A
    dictionary maps string keys to values and keeps its keys in insertion
    order.  Dictionaries are objects: the heap maps a reference to the
    dictionary it currently holds, so that a dictionary changed through one
    reference is seen changed through every other.  Lists are values: a
    list object held by two dictionaries at once is outside the model. *)

#[warnings="-register-all"]
Inductive pyval : Type :=
| VNone
| VInt (z : Z)
| VStr (s : String.string)
| VList (l : list pyval).

Inductive pyexc : Type :=
| KeyError (key : String.string)
| TypeError
| AttributeError
| HTTPError.

Inductive result (A : Type) : Type :=
| Ok (a : A)
| Exc (e : pyexc).

Arguments Ok {A} a.
Arguments Exc {A} e.

(** A dictionary with string keys, in insertion order. *)
Definition dict_of (V : Type) : Type := list (String.string * V).

Definition dict : Type := dict_of pyval.

(** The value under [k], if [k in d]. *)
Fixpoint dict_get {V : Type} (k : String.string) (d : dict_of V) : option V :=
  match d with
  | [] => None
  | (k', v) :: d => if String.eqb k k' then Some v else dict_get k d
  end.

(** [d] without the key [k]. *)
Fixpoint dict_remove {V : Type} (k : String.string) (d : dict_of V) : dict_of V :=
  match d with
  | [] => []
  | (k', v) :: d =>
      if String.eqb k k' then dict_remove k d else (k', v) :: dict_remove k d
  end.

(** [d[k] = v]: the value is replaced where the key stands, a new key goes
    last. *)
Fixpoint dict_set {V : Type} (k : String.string) (v : V) (d : dict_of V) : dict_of V :=
  match d with
  | [] => [(k, v)]
  | (k', v') :: d =>
      if String.eqb k k' then (k', v) :: d else (k', v') :: dict_set k v d
  end.

Definition heap : Type := nat -> dict.

Definition upd (h : heap) (r : nat) (d : dict) : heap :=
  fun r' => if Nat.eqb r r' then d else h r'.

(** What can be a dictionary key: everything but a list. *)
Definition hashable (v : pyval) : bool :=
  match v with
  | VList _ => false
  | _ => true
  end.

(** [==] on hashable values. *)
Definition key_eqb (a b : pyval) : bool :=
  match a, b with
  | VNone, VNone => true
  | VInt x, VInt y => Z.eqb x y
  | VStr x, VStr y => String.eqb x y
  | _, _ => false
  end.

(** ** utils/api_utils.py: years_dict *)

(** [condensed_dic]: years in the order they were first met, each with the
    reference of the transcript stored under it. *)
Definition condensed : Type := list (pyval * nat).

(** [condensed_dic[year]], if [year in condensed_dic]. *)
Fixpoint condensed_get (year : pyval) (c : condensed) : option nat :=
  match c with
  | [] => None
  | (y, r) :: c => if key_eqb year y then Some r else condensed_get year c
  end.

(** The body of [for transcript in content:]. *)
Definition years_dict_body (condensed_dic : condensed) (h : heap) (transcript : nat)
  : result (condensed * heap) :=
  (* transcript.pop('date') *)
  match dict_get "date" (h transcript) with
  | None => Exc (KeyError "date")
  | Some _ =>
      let h := upd h transcript (dict_remove "date" (h transcript)) in
      (* if transcript['year'] in condensed_dic: *)
      match dict_get "year" (h transcript) with
      | None => Exc (KeyError "year")
      | Some year =>
          if negb (hashable year) then Exc TypeError
          else
            match condensed_get year condensed_dic with
            | Some first =>
                (* isinstance(condensed_dic[year]['quarter'], list) *)
                match dict_get "quarter" (h first) with
                | None => Exc (KeyError "quarter")
                | Some (VList quarters) =>
                    match dict_get "quarter" (h transcript) with
                    | None => Exc (KeyError "quarter")
                    | Some quarter =>
                        Ok (condensed_dic,
                            upd h first
                                (dict_set "quarter" (VList (quarters ++ [quarter]))
                                          (h first)))
                    end
                | Some single =>
                    match dict_get "quarter" (h transcript) with
                    | None => Exc (KeyError "quarter")
                    | Some quarter =>
                        Ok (condensed_dic,
                            upd h first
                                (dict_set "quarter" (VList [single; quarter])
                                          (h first)))
                    end
                end
            | None => Ok (condensed_dic ++ [(year, transcript)], h)
            end
      end
  end.

Fixpoint years_dict_loop (content : list nat) (condensed_dic : condensed) (h : heap)
  : result (condensed * heap) :=
  match content with
  | [] => Ok (condensed_dic, h)
  | transcript :: content =>
      match years_dict_body condensed_dic h transcript with
      | Ok (condensed_dic, h) => years_dict_loop content condensed_dic h
      | Exc e => Exc e
      end
  end.

(** [years_dict(content)]: the references returned and the heap left.  When
    the call raises, the model does not say what it had changed before. *)
Definition years_dict (content : list nat) (h : heap) : result (list nat * heap) :=
  match years_dict_loop content [] h with
  | Ok (condensed_dic, h) => Ok (map snd condensed_dic, h)
  | Exc e => Exc e
  end.

(** ** utils/api_utils.py: merge_list_dict *)

(** [dict.get(key)]: [None] for a missing key. *)
Definition dict_get_none (key : String.string) (d : dict) : pyval :=
  match dict_get key d with
  | Some v => v
  | None => VNone
  end.

(** The body of [for dict in list_dicts:]: the key gets an empty list the
    first time it is met, then the value is appended to its list. *)
Definition merge_body (key : String.string) (final_dict : dict_of (list pyval))
           (d : dict) : dict_of (list pyval) :=
  let final_dict :=
    match dict_get key final_dict with
    | None => dict_set key [] final_dict
    | Some _ => final_dict
    end in
  match dict_get key final_dict with
  | Some column => dict_set key (column ++ [dict_get_none key d]) final_dict
  | None => final_dict
  end.

(** [merge_list_dict(list_dicts)], with [keys] the order in which the set
    [set().union( *list_dicts)] is iterated. *)
Definition merge_list_dict (keys : list String.string) (list_dicts : list dict)
  : dict_of (list pyval) :=
  fold_left (fun final_dict key => fold_left (merge_body key) list_dicts final_dict)
            keys [].

(** [keys] is an iteration order of the set of the keys of [list_dicts]. *)
Definition iterates_keys (keys : list String.string) (list_dicts : list dict) : Prop :=
  NoDup keys /\
  forall k, In k keys <-> exists d, In d list_dicts /\ dict_get k d <> None.

(** One such order: the keys as they are first met. *)
Fixpoint add_keys (d : dict) (keys : list String.string) : list String.string :=
  match d with
  | [] => keys
  | (k, _) :: d =>
      add_keys d (if existsb (String.eqb k) keys then keys else keys ++ [k])
  end.

Definition union_keys (list_dicts : list dict) : list String.string :=
  fold_left (fun keys d => add_keys d keys) list_dicts [].

(** ** What years_dict is expected to compute *)

Definition year_val (h : heap) (r : nat) : pyval :=
  match dict_get "year" (h r) with
  | Some y => y
  | None => VNone
  end.

Definition quarter_val (h : heap) (r : nat) : pyval :=
  match dict_get "quarter" (h r) with
  | Some q => q
  | None => VNone
  end.

(** A transcript as the site gives it: a date, a year and a quarter, the
    last two not lists. *)
Definition complete (d : dict) : bool :=
  match dict_get "date" d, dict_get "year" d, dict_get "quarter" d with
  | Some _, Some y, Some q => hashable y && hashable q
  | _, _, _ => false
  end.

(** The transcripts that are the first of their year, in their order. *)
Fixpoint firsts (h : heap) (content : list nat) : list nat :=
  match content with
  | [] => []
  | r :: content =>
      r :: filter (fun r' => negb (key_eqb (year_val h r') (year_val h r)))
                  (firsts h content)
  end.

(** The quarters of the transcripts of year [y], in their order. *)
Definition quarters_in (h : heap) (y : pyval) (content : list nat) : list pyval :=
  flat_map (fun r => if key_eqb y (year_val h r) then [quarter_val h r] else [])
           content.

(** One quarter stays as it is, several become a list. *)
Definition grouped (quarters : list pyval) : pyval :=
  match quarters with
  | [q] => q
  | _ => VList quarters
  end.

(** What holds between the heap [h0] at the call, the transcripts [seen] so
    far, and [condensed_dic] and the heap [h] after them. *)
Definition years_inv (h0 : heap) (seen : list nat) (condensed_dic : condensed)
           (h : heap) : Prop :=
  condensed_dic = map (fun r => (year_val h0 r, r)) (firsts h0 seen) /\
  (forall f, In f (firsts h0 seen) ->
             dict_get "quarter" (h f)
             = Some (grouped (quarters_in h0 (year_val h0 f) seen))) /\
  (forall r, ~ In r seen -> h r = h0 r) /\
  (forall r, In r seen -> dict_get "date" (h r) = None) /\
  (forall r k, k <> "date" -> k <> "quarter" ->
               dict_get k (h r) = dict_get k (h0 r)).

(** ** The clock and the start of the window *)

Definition nondecreasing (clk : nat -> Z) : Prop :=
  forall i j, (i <= j)%nat -> clk i <= clk j.

Section Window.

Context {Args Data Err Store : Type}.

(** The limiter reads a clock that never goes back, and the window started
    at a reading already taken. *)
Definition clock_inv (s : @State Args Data Err Store) : Prop :=
  monotonic_clock s /\
  nondecreasing (mono (world s)) /\
  exists k, (k < reads (world s))%nat /\ last_reset (self s) = mono (world s) k.

(** The calls of the operation recorded in a trace, with their outcomes. *)
Fixpoint called (tr : list (@event Args Data Err)) : list (Args * @outcome Data Err) :=
  match tr with
  | [] => []
  | Called a o :: tr => (a, o) :: called tr
  | _ :: tr => called tr
  end.

(** The values returned among calls. *)
Definition returns (calls : list (Args * @outcome Data Err)) : list (@value Data) :=
  flat_map (fun ao => match snd ao with
                      | Return v => [v]
                      | Raise _ => []
                      end) calls.

(** A limiter as [api_utils] builds it: at least one call a window, the
    exception raised on the limit, the clock [__init__] gave. *)
Definition limiter_ok (s : @State Args Data Err Store) : Prop :=
  1 <= calls (self s) /\ raise_on_limit (self s) = true /\ monotonic_clock s.

End Window.

(** ** API/roic_api.py: class Roic_API *)

(** What one call of [api_request] is made with: the URL, the query string
    and the referer are built from the ticker, the year and the quarter. *)
Record request : Type := mkRequest
  { req_ticker : String.string;
    req_year : pyval;
    req_quarter : pyval }.

(** A result, or an exception that may also come from the retry wrapper. *)
Inductive ans (A : Type) : Type :=
| Got (a : A)
| Threw (e : @exn pyexc).

Arguments Got {A} a.
Arguments Threw {A} e.

(** An exception that [get_all] lets out of its loops is neither the rate
    limit exception nor an HTTP error. *)
Definition passes_through (e : @exn pyexc) : Prop :=
  (forall x, e <> RateLimitExc x) /\ e <> OtherExc HTTPError.

(** What the loops did, read from the trace: the requests made, what was
    kept of them, and that nothing but HTTP errors was dropped. *)
Definition kept (reqs : list (request * @outcome dict pyexc))
           (acc transcripts : list (@value dict)) : Prop :=
  transcripts = acc ++ returns reqs /\
  Forall (fun ao => match snd ao with
                    | Return _ => True
                    | Raise e => e = OtherExc HTTPError
                    end) reqs.

(** [pos_quarters] as the loop over the quarters goes through it: an integer
    is wrapped in a list, a list gives its elements, a string its
    characters, and [None] has no length. *)
Definition quarter_values (pos_quarters : pyval) : result (list pyval) :=
  match pos_quarters with
  | VInt z => Ok [VInt z]
  | VList l => Ok l
  | VStr s =>
      Ok (map (fun c => VStr (String.String c String.EmptyString))
              (String.list_ascii_of_string s))
  | VNone => Exc TypeError
  end.

(** [merge_list_dict(transcripts)] on what [api_request] returned: [None]
    among the transcripts cannot be iterated for its keys. *)
Fixpoint dicts_of (transcripts : list (@value dict)) : option (list dict) :=
  match transcripts with
  | [] => Some []
  | PyData d :: transcripts =>
      match dicts_of transcripts with
      | Some ds => Some (d :: ds)
      | None => None
      end
  | PyNone :: _ => None
  end.

Definition merge_transcripts (keys : list String.string)
           (transcripts : list (@value dict)) : ans (dict_of (list pyval)) :=
  match dicts_of transcripts with
  | Some ds => Got (merge_list_dict keys ds)
  | None => Threw (OtherExc TypeError)
  end.

Section Roic.

(** The store the HTTP layer acts on. *)
Context {Store : Type}.

Local Abbreviation GState := (@State request dict pyexc Store).

(** [str.upper]. *)
Variable upper : String.string -> String.string.

(** [session.get(...)], [raise_for_status()] and [.json()['data']]: the
    function [api_request] decorates. *)
Variable http : @operation request dict pyexc Store.

(** What the page of a ticker lists under [earningscalls], once loaded and
    parsed. *)
Variable page : String.string -> result (list dict).

(** [api_request] of [utils/api_utils.py]. *)
Definition api_request (fuel : nat) (a : request) (g : GState)
  : option (@outcome dict pyexc * GState) :=
  sleep_and_retry fuel (RateLimit_wrapper (call http)) a g.


(** [for quarter in range(len(pos_quarters)):] with its [try], [break]
    and [append]. *)
Fixpoint quarters_loop (fuel : nat) (key : String.string) (year : pyval)
         (pos_quarters : list pyval) (transcripts : list (@value dict)) (g : GState)
  : option (ans (list (@value dict)) * GState) :=
  match pos_quarters with
  | [] => Some (Got transcripts, g)
  | quarter :: pos_quarters =>
      match api_request fuel (mkRequest key year quarter) g with
      | None => None
      | Some (Return json_data, g) =>
          quarters_loop fuel key year pos_quarters (transcripts ++ [json_data]) g
      | Some (Raise (OtherExc HTTPError), g) => Some (Got transcripts, g)
      | Some (Raise e, g) => Some (Threw e, g)
      end
  end.

(** [for year in range(len(self.ticker_years[key])):]. *)
Fixpoint years_loop (fuel : nat) (key : String.string) (h : heap)
         (entries : list nat) (transcripts : list (@value dict)) (g : GState)
  : option (ans (list (@value dict)) * GState) :=
  match entries with
  | [] => Some (Got transcripts, g)
  | entry :: entries =>
      match dict_get "quarter" (h entry) with
      | None => Some (Threw (OtherExc (KeyError "quarter")), g)
      | Some pos_quarters =>
          match dict_get "year" (h entry) with
          | None => Some (Threw (OtherExc (KeyError "year")), g)
          | Some year =>
              match quarter_values pos_quarters with
              | Exc e => Some (Threw (OtherExc e), g)
              | Ok pos_quarters =>
                  match quarters_loop fuel key year pos_quarters transcripts g with
                  | None => None
                  | Some (Got transcripts, g) =>
                      years_loop fuel key h entries transcripts g
                  | Some (Threw e, g) => Some (Threw e, g)
                  end
              end
          end
      end
  end.

(** [for key in self.ticker_years.keys():]; a ticker still at [None] has no
    length. *)
Fixpoint tickers_loop (fuel : nat) (h : heap)
         (ticker_years : dict_of (option (list nat)))
         (transcripts : list (@value dict)) (g : GState)
  : option (ans (list (@value dict)) * GState) :=
  match ticker_years with
  | [] => Some (Got transcripts, g)
  | (key, None) :: _ =>
      Some (Threw (OtherExc TypeError), g)
  | (key, Some entries) :: ticker_years =>
      match years_loop fuel key h entries transcripts g with
      | None => None
      | Some (Got transcripts, g) => tickers_loop fuel h ticker_years transcripts g
      | Some (Threw e, g) => Some (Threw e, g)
      end
  end.

(** The dictionaries of the process: the heap, the next free reference and
    the pages loaded so far. *)
Record Objects : Type := mkObjects
  { objects : heap;
    next_ref : nat;
    visited : list String.string }.

(** The objects [json.loads] builds for the elements of [content]. *)
Definition allocate (content : list dict) (o : Objects) : list nat * Objects :=
  (seq (next_ref o) (length content),
   mkObjects (fun r => if (next_ref o <=? r)%nat && (r <? next_ref o + length content)%nat
                       then nth (r - next_ref o) content []
                       else objects o r)
             (next_ref o + length content)
             (visited o)).

(** [[str.upper(ticker) for ticker in ticker]]. *)
Fixpoint cap_tickers (tickers : list pyval) : result (list String.string) :=
  match tickers with
  | [] => Ok []
  | VStr s :: tickers =>
      match cap_tickers tickers with
      | Ok l => Ok (upper s :: l)
      | Exc e => Exc e
      end
  | _ :: _ => Exc TypeError
  end.

(** [dict.fromkeys(cap_tickers)]. *)
Definition fromkeys (keys : list String.string) : dict_of (option (list nat)) :=
  fold_left (fun d k => dict_set k None d) keys [].

(** [for ticker in cap_tickers:] of [_available_transcripts].  The
    dictionaries of a page whose grouping raises are reachable from nowhere
    afterwards, and are left as they were loaded. *)
Fixpoint pages_loop (tickers : list String.string)
         (dict_years : dict_of (option (list nat))) (o : Objects)
  : result (dict_of (option (list nat))) * Objects :=
  match tickers with
  | [] => (Ok dict_years, o)
  | ticker :: tickers =>
      let o := mkObjects (objects o) (next_ref o) (visited o ++ [ticker]) in
      match page ticker with
      | Exc e => (Exc e, o)
      | Ok quarters_available =>
          let '(content, o) := allocate quarters_available o in
          match years_dict content (objects o) with
          | Exc e => (Exc e, o)
          | Ok (available, h) =>
              pages_loop tickers (dict_set ticker (Some available) dict_years)
                         (mkObjects h (next_ref o) (visited o))
          end
      end
  end.

(** [Roic_API._available_transcripts(ticker)]. *)
Definition available_transcripts (ticker : pyval) (o : Objects)
  : result (dict_of (option (list nat))) * Objects :=
  let tickers :=
    match ticker with
    | VStr s => Ok [VStr s]
    | VList l => Ok l
    | _ => Exc TypeError
    end in
  match tickers with
  | Exc e => (Exc e, o)
  | Ok tickers =>
      match cap_tickers tickers with
      | Exc e => (Exc e, o)
      | Ok cap => pages_loop cap (fromkeys cap) o
      end
  end.

(** [Roic_API.get_all], with [keys] the order in which the set of the keys
    of the transcripts is iterated. *)
Definition get_all (fuel : nat) (keys : list String.string) (ticker : pyval)
           (o : Objects) (g : GState)
  : option (ans (dict_of (list pyval)) * Objects * GState) :=
  match available_transcripts ticker o with
  | (Exc e, o) => Some (Threw (OtherExc e), o, g)
  | (Ok ticker_years, o) =>
      match tickers_loop fuel (objects o) ticker_years [] g with
      | None => None
      | Some (Threw e, g) => Some (Threw e, o, g)
      | Some (Got transcripts, g) => Some (merge_transcripts keys transcripts, o, g)
      end
  end.

End Roic.

(** ** __main__.py: google_href

    The page of results is fetched and parsed outside the model; what is
    modelled is what the function does with text: the search it asks for
    and the cleaning of the links found, each [href] a string or [None]. *)

(** [s.replace(' ', '+')]. *)
Fixpoint replace_spaces (s : String.string) : String.string :=
  match s with
  | String.EmptyString => String.EmptyString
  | String.String c s =>
      String.String (if Ascii.eqb c " " then "+"%char else c) (replace_spaces s)
  end.

(** [f'{company} earnings call'.replace(' ', '+')]. *)
Definition search_query (company : String.string) : String.string :=
  replace_spaces (String.append company " earnings call").

(** What [[^&]*] matches at the start of [s]: the longest run of characters
    that are not [&]. *)
Fixpoint up_to_amp (s : String.string) : String.string :=
  match s with
  | String.EmptyString => String.EmptyString
  | String.String c s =>
      if Ascii.eqb c "&" then String.EmptyString else String.String c (up_to_amp s)
  end.

(** [re.compile(r'http[^&]*').search(link)]: the match at the leftmost
    place where [http] stands, if there is one. *)
Fixpoint search_http (link : String.string) : option String.string :=
  match link with
  | String.EmptyString => None
  | String.String _ rest =>
      if String.prefix "http" link then Some (up_to_amp link) else search_http rest
  end.

(** [[p.search(link).group() for link in earnings_links]]. *)
Fixpoint clean_links (earnings_links : list (option String.string))
  : result (list String.string) :=
  match earnings_links with
  | [] => Ok []
  | None :: _ => Exc TypeError
  | Some link :: earnings_links =>
      match search_http link with
      | None => Exc AttributeError
      | Some m =>
          match clean_links earnings_links with
          | Ok l => Ok (m :: l)
          | Exc e => Exc e
          end
      end
  end.

(** The string has the character. *)
Fixpoint has_char (c : Ascii.ascii) (s : String.string) : bool :=
  match s with
  | String.EmptyString => false
  | String.String c' s => Ascii.eqb c c' || has_char c s
  end.

(** ** Concrete transcripts, pages and a site *)

Module Collected.

(** A transcript as the page of a ticker lists it. *)
Definition transcript (date : String.string) (year quarter : Z) : dict :=
  [("date", VStr date); ("year", VInt year); ("quarter", VInt quarter)].

(** Four earnings calls, the newest first. *)
Definition earningscalls : list dict :=
  [transcript "2022-10-28" 2022 3; transcript "2022-07-29" 2022 2;
   transcript "2022-04-29" 2022 1; transcript "2022-02-01" 2021 4].

(** The four calls as the objects 0 to 3; object 4 has lost its date and
    object 5 has no quarter. *)
Definition sample_heap : heap :=
  fun r => nth r (earningscalls
                  ++ [[("year", VInt 2021); ("quarter", VInt 3)];
                      [("date", VStr "2022-01-28"); ("year", VInt 2022)]]) [].

Definition sample_content : list nat := [0; 1; 2; 3]%nat.

(** [str.upper] on the letters a to z. *)
Definition upper_char (c : Ascii.ascii) : Ascii.ascii :=
  let n := Ascii.nat_of_ascii c in
  if (97 <=? n)%nat && (n <=? 122)%nat then Ascii.ascii_of_nat (n - 32) else c.

Fixpoint ascii_upper (s : String.string) : String.string :=
  match s with
  | String.EmptyString => String.EmptyString
  | String.String c s => String.String (upper_char c) (ascii_upper s)
  end.

(** The pages of two tickers; any other page has no script with the
    dates. *)
Definition sample_page (ticker : String.string) : result (list dict) :=
  if String.eqb ticker "XOM" then Ok earningscalls
  else if String.eqb ticker "CVX" then Ok [transcript "2022-10-28" 2022 3]
  else Exc AttributeError.

(** A site that has every transcript but those of a second quarter, and
    counts the requests it gets. *)
Definition site : @operation request dict pyexc nat :=
  fun a st =>
    (match req_quarter a with
     | VInt 2 => Raise (OtherExc HTTPError)
     | quarter =>
         Return (PyData [("symbol", VStr (req_ticker a)); ("year", req_year a);
                         ("quarter", quarter)])
     end, S st).

(** A clock that is three seconds further at each reading. *)
Definition ticking_world : @World request dict pyexc nat :=
  mkWorld (fun i => 3 * Z.of_nat i) 0 [] 0%nat.

(** The limiter of [api_request]: two calls every ten seconds. *)
Definition sample_limiter : @State request dict pyexc nat :=
  RateLimit_init 2 10 true ticking_world.

(** Two requests through the limiter. *)
Definition two_requests : list request :=
  [mkRequest "XOM" (VInt 2022) (VInt 3); mkRequest "XOM" (VInt 2022) (VInt 1)].

Definition after_two_requests : @State request dict pyexc nat :=
  run (RateLimit_wrapper (call site)) two_requests sample_limiter.

Definition no_objects : Objects := mkObjects (fun _ => []) 0 [].

Definition two_tickers : pyval := VList [VStr "xom"; VStr "cvx"].

(** Batches of tickers, as [collect_data.py] passes them. *)
Definition batches : pyval :=
  VList [VList [VStr "xom"; VStr "cvx"; VStr "cop"; VStr "eog"; VStr "pxd"];
         VList [VStr "duk"; VStr "wmb"; VStr "aee"; VStr "eix"; VStr "oxy"]].

Definition sample_available : result (dict_of (option (list nat))) * Objects :=
  available_transcripts ascii_upper sample_page two_tickers no_objects.

Definition sample_ticker_years : dict_of (option (list nat)) :=
  match fst sample_available with
  | Ok ticker_years => ticker_years
  | Exc _ => []
  end.

(** The loops of [get_all] over the two tickers. *)
Definition sample_loops : option (ans (list (@value dict)) * @State request dict pyexc nat) :=
  tickers_loop site 5 (objects (snd sample_available)) sample_ticker_years []
               sample_limiter.

(** The same with a third ticker whose page was never read. *)
Definition interrupted_loops
  : option (ans (list (@value dict)) * @State request dict pyexc nat) :=
  tickers_loop site 5 (objects (snd sample_available))
               (sample_ticker_years ++ [("DUK", None)]) [] sample_limiter.

Definition sample_keys : list String.string := ["symbol"; "year"; "quarter"].

Definition collected
  : option (ans (dict_of (list pyval)) * Objects * @State request dict pyexc nat) :=
  get_all ascii_upper site sample_page 5 sample_keys two_tickers no_objects
          sample_limiter.

(** The state a run of the model ended in, the starting state if it has
    not ended. *)
Definition final {A : Type} (r : option (A * @State request dict pyexc nat))
  : @State request dict pyexc nat :=
  match r with
  | Some (_, g) => g
  | None => sample_limiter
  end.

(** Two responses of the site with different keys. *)
Definition sample_dicts : list dict :=
  [[("symbol", VStr "XOM"); ("year", VInt 2022)];
   [("symbol", VStr "CVX"); ("quarter", VInt 4)]].

(** Links as the page of results holds them. *)
Definition sample_links : list (option String.string) :=
  [Some "/url?q=https://ir.tesla.com/press&sa=U&ved=2ah";
   Some "/url?q=http://example.org/q3-call"].

(** A link of the page of results that leads nowhere outside. *)
Definition inner_link : String.string := "/search?q=tesla+earnings+call&start=10".

End Collected.

(** * Properties *)

Unset Implicit Arguments.

(** Boolean comparisons in the hypotheses, as inequalities. *)
Ltac zbool :=
repeat match goal with
  | H : (_ >? _) = true |- _ => rewrite Z.gtb_ltb in H; apply Z.ltb_lt in H
  | H : (_ >? _) = false |- _ => rewrite Z.gtb_ltb in H; apply Z.ltb_ge in H
  | H : (_ <=? _) = true |- _ => apply Z.leb_le in H
  | H : (_ <=? _) = false |- _ => apply Z.leb_gt in H
  | H : (_ <? _) = true |- _ => apply Z.ltb_lt in H
  | H : (_ <? _) = false |- _ => apply Z.ltb_ge in H
  end.

Section GateProperties.

Context {Args Data Err Store : Type}.

Local Abbreviation State := (@State Args Data Err Store).
Local Abbreviation System := (@System Args Data Err Store).
Local Abbreviation World := (@World Args Data Err Store).
Local Abbreviation RateLimit := (@RateLimit Args Data Err Store).
Local Abbreviation operation := (@operation Args Data Err Store).
Local Abbreviation func_t := (@func_t Args Data Err Store).
Local Abbreviation outcome := (@outcome Data Err).
Local Abbreviation exn := (@exn Err).

(** ** One pass through the locked block *)

(** The block in closed form: the two branches of the window test. *)
Lemma locked_block_open (s : State) :
  let r := self s in
  let now := fst (clock r (world s)) in
  let w1 := snd (clock r (world s)) in
  let period_remaining := interval r - (now - last_reset r) in
  let l := RLock_release (RLock_acquire main_thread (lock r)) in
  locked_block s =
    if period_remaining <=? 0 then
      (limit_test (mkRateLimit (calls r) (interval r) (clock r) (raise_on_limit r)
                               (fst (clock r w1)) 1 (RLock_acquire main_thread (lock r)))
                  period_remaining,
       mkState (mkRateLimit (calls r) (interval r) (clock r) (raise_on_limit r)
                            (fst (clock r w1)) 1 l)
               (snd (clock r w1)))
    else
      (limit_test (mkRateLimit (calls r) (interval r) (clock r) (raise_on_limit r)
                               (last_reset r) (num_calls r + 1)
                               (RLock_acquire main_thread (lock r)))
                  period_remaining,
       mkState (mkRateLimit (calls r) (interval r) (clock r) (raise_on_limit r)
                            (last_reset r) (num_calls r + 1) l)
               w1).
Proof.
  destruct s as [r w]; cbn [self world].
  unfold locked_block, call_clock, set_lock, set_num_calls, set_last_reset.
  cbn [self world clock calls interval raise_on_limit last_reset num_calls lock].
  destruct (clock r w) as [now w1]; cbn [fst snd self world clock calls interval
    raise_on_limit last_reset num_calls lock].
  destruct (interval r - (now - last_reset r) <=? 0).
  - cbn [self world clock calls interval raise_on_limit last_reset num_calls lock].
    destruct (clock r w1) as [now' w2].
    lazy; reflexivity.
  - lazy; reflexivity.
Qed.

Lemma release_acquire (me : nat) (l : RLock) :
  RLock_mine me l = true -> RLock_release (RLock_acquire me l) = l.
Proof.
  destruct l as [[t|] [|d]]; cbn; intros H; try discriminate; try reflexivity.
  apply Nat.eqb_eq in H; subst; reflexivity.
Qed.

(** What the block does to the limiter, whichever way it is left. *)
Lemma locked_block_self (s : State) :
  let r := self s in
  let r' := self (snd (locked_block s)) in
  calls r' = calls r /\ interval r' = interval r /\
  raise_on_limit r' = raise_on_limit r /\ clock r' = clock r /\
  lock r' = RLock_release (RLock_acquire main_thread (lock r)).
Proof.
  cbn zeta. rewrite locked_block_open; cbn zeta.
  destruct (_ <=? 0); cbn; auto.
Qed.

(** The block reads the clock and touches nothing else of the world. *)
Lemma locked_block_world (s : State) :
  monotonic_clock s ->
  let w' := world (snd (locked_block s)) in
  trace w' = trace (world s) /\ store w' = store (world s) /\
  mono w' = mono (world s) /\ (reads (world s) < reads w')%nat.
Proof.
  unfold monotonic_clock; intros Hc; cbn zeta.
  rewrite locked_block_open; cbn zeta. rewrite Hc.
  destruct (_ <=? 0); cbn; repeat split; lia.
Qed.

(** Calling the operation leaves the limiter alone. *)
Lemma call_self (op : operation) (a : Args) (s : State) :
  self (snd (call op a s)) = self s.
Proof. unfold call; destruct (op a _); reflexivity. Qed.

Lemma wrapper_self (op : operation) (a : Args) (s : State) :
  self (snd (RateLimit_wrapper (call op) a s)) = self (snd (locked_block s)).
Proof.
  unfold RateLimit_wrapper.
  destruct (locked_block s) as [[| |e] s1]; cbn [snd]; auto using call_self.
Qed.

(** The configuration after a call of the rate-limited function. *)
Lemma wrapper_config (op : operation) (a : Args) (s : State) :
  let r := self s in
  let r' := self (snd (RateLimit_wrapper (call op) a s)) in
  calls r' = calls r /\ interval r' = interval r /\
  raise_on_limit r' = raise_on_limit r /\ clock r' = clock r.
Proof.
  cbn zeta. rewrite wrapper_self.
  destruct (locked_block_self s) as (Hc & Hi & Hr & Hk & _); auto.
Qed.

(** C8. Every call of the rate-limited function, whether the operation is
    run, the call is refused with the exception or dropped silently,
    leaves [calls], [interval], [raise_on_limit] and [clock] as they were;
    and when the lock was free (or held by the caller) on entry, the
    limiter afterwards is the limiter before with at most [last_reset] and
    [num_calls] changed. *)
Theorem wrapper_frame (op : operation) (a : Args) (s : State) :
  let r := self s in
  let r' := self (snd (RateLimit_wrapper (call op) a s)) in
  (calls r' = calls r /\ interval r' = interval r /\
   raise_on_limit r' = raise_on_limit r /\ clock r' = clock r) /\
  (RLock_mine main_thread (lock r) = true ->
   r' = set_last_reset (last_reset r') (set_num_calls (num_calls r') r)).
Proof.
  cbn zeta. rewrite wrapper_self.
  destruct (locked_block_self s) as (Hc & Hi & Hr & Hk & Hl).
  split; [auto|].
  intros Hm. rewrite (release_acquire _ _ Hm) in Hl.
  destruct (self (snd (locked_block s))); destruct (self s); cbn in *.
  unfold set_last_reset, set_num_calls; cbn. congruence.
Qed.

(** Every limiter [__init__] builds reads the monotonic clock, and no call
    changes that. *)
Lemma init_monotonic_clock (c d : Z) (b : bool) (w : World) :
  monotonic_clock (RateLimit_init c d b w).
Proof. reflexivity. Qed.

Lemma wrapper_monotonic_clock (op : operation) (a : Args) (s : State) :
  monotonic_clock s ->
  monotonic_clock (snd (RateLimit_wrapper (call op) a s)).
Proof.
  unfold monotonic_clock; intros H.
  destruct (wrapper_config op a s) as (_ & _ & _ & ->); exact H.
Qed.

(** ** An attempt inside the window, an attempt after it *)

Lemma locked_block_in_window (s : State) :
  elapsed_now s < interval (self s) ->
  let r := self s in
  let r' := self (snd (locked_block s)) in
  num_calls r' = num_calls r + 1 /\ last_reset r' = last_reset r /\
  fst (locked_block s) =
    if num_calls r + 1 >? calls r then
      if raise_on_limit r
      then Raised (RateLimitException_init (interval r - elapsed_now s))
      else ReturnNone
    else FallThrough.
Proof.
  unfold elapsed_now; intros Hw; cbn zeta.
  rewrite locked_block_open; cbn zeta.
  destruct (_ <=? 0) eqn:E; [zbool; lia|].
  cbn; auto.
Qed.

Lemma locked_block_elapsed (s : State) :
  interval (self s) <= elapsed_now s ->
  let r := self s in
  let r' := self (snd (locked_block s)) in
  num_calls r' = 1 /\
  last_reset r' = fst (clock r (snd (clock r (world s)))) /\
  fst (locked_block s) =
    if 1 >? calls r then
      if raise_on_limit r
      then Raised (RateLimitException_init (interval r - elapsed_now s))
      else ReturnNone
    else FallThrough.
Proof.
  unfold elapsed_now; intros Hw; cbn zeta.
  rewrite locked_block_open; cbn zeta.
  destruct (_ <=? 0) eqn:E; [|zbool; lia].
  cbn; auto.
Qed.

(** The wrapper follows the way the block was left. *)
Lemma wrapper_fall_through (func : func_t) (a : Args) (s : State) :
  fst (locked_block s) = FallThrough ->
  RateLimit_wrapper func a s = func a (snd (locked_block s)).
Proof.
  unfold RateLimit_wrapper; destruct (locked_block s) as [x s1]; cbn.
  intros ->; reflexivity.
Qed.

Lemma wrapper_raised (func : func_t) (a : Args) (s : State) (e : RateLimitException) :
  fst (locked_block s) = Raised e ->
  RateLimit_wrapper func a s = (Raise (RateLimitExc e), snd (locked_block s)).
Proof.
  unfold RateLimit_wrapper; destruct (locked_block s) as [x s1]; cbn.
  intros ->; reflexivity.
Qed.

Lemma wrapper_return_none (func : func_t) (a : Args) (s : State) :
  fst (locked_block s) = ReturnNone ->
  RateLimit_wrapper func a s = (Return PyNone, snd (locked_block s)).
Proof.
  unfold RateLimit_wrapper; destruct (locked_block s) as [x s1]; cbn.
  intros ->; reflexivity.
Qed.

Lemma call_world (op : operation) (a : Args) (s : State) :
  trace (world (snd (call op a s))) =
    trace (world s) ++ [Called a (fst (call op a s))] /\
  mono (world (snd (call op a s))) = mono (world s) /\
  reads (world (snd (call op a s))) = reads (world s).
Proof. unfold call; destruct (op a _); cbn; auto. Qed.

(** C4. With [calls >= 1], an attempt made before the window elapses
    leaves [num_calls] one higher than it found it, whether or not the
    attempt is refused; an attempt made once the window has elapsed runs
    the operation and leaves [num_calls] at exactly 1, whatever count the
    refused attempts of the previous window had driven it to.  So the
    count only ever drops at a window boundary. *)
Theorem count_discipline (op : operation) (a : Args) (s : State) :
  1 <= calls (self s) ->
  let f := RateLimit_wrapper (call op) in
  let n' := num_calls (self (snd (f a s))) in
  (elapsed_now s < interval (self s) -> n' = num_calls (self s) + 1) /\
  (interval (self s) <= elapsed_now s ->
     n' = 1 /\
     fst (locked_block s) = FallThrough /\
     f a s = call op a (snd (locked_block s))) /\
  (n' <> num_calls (self s) + 1 -> interval (self s) <= elapsed_now s).
Proof.
  intros Hc; cbn zeta. rewrite wrapper_self.
  split; [|split].
  - intros Hw. apply (locked_block_in_window s Hw).
  - intros Hw. destruct (locked_block_elapsed s Hw) as (Hn & _ & Hx).
    assert (Hf : fst (locked_block s) = FallThrough).
    { rewrite Hx. destruct (1 >? calls (self s)) eqn:E; [zbool; lia|reflexivity]. }
    auto using wrapper_fall_through.
  - intros Hn.
    destruct (Z_lt_le_dec (elapsed_now s) (interval (self s))) as [Hw|Hw]; [|exact Hw].
    destruct (locked_block_in_window s Hw) as (Hn' & _); contradiction.
Qed.

(** C6. A limiter built with [raise_on_limit = False] whose count already
    reached [calls] inside the window: the call returns [None], raises
    nothing, and leaves the trace and the store of the operation as they
    were, so the operation was not run and nothing slept or retried. *)
Theorem silent_drop (op : operation) (a : Args) (s : State) :
  monotonic_clock s ->
  raise_on_limit (self s) = false ->
  elapsed_now s < interval (self s) ->
  calls (self s) < num_calls (self s) + 1 ->
  let r := RateLimit_wrapper (call op) a s in
  r = (Return PyNone, snd (locked_block s)) /\
  trace (world (snd r)) = trace (world s) /\
  store (world (snd r)) = store (world s).
Proof.
  intros Hm Hr Hw Hk; cbn zeta.
  destruct (locked_block_in_window s Hw) as (_ & _ & Hx).
  rewrite Hr in Hx.
  destruct (_ >? _) eqn:E in Hx; [|zbool; lia].
  rewrite (wrapper_return_none _ _ _ Hx); cbn [snd].
  destruct (locked_block_world s Hm) as (Ht & Hs & _); auto.
Qed.

(** ** Runs of attempts *)

Lemma run_app (f : func_t) (l1 l2 : list Args) (s : State) :
  run f (l1 ++ l2) s = run f l2 (run f l1 s).
Proof. revert s; induction l1 as [|a l1 IH]; intros s; cbn; auto. Qed.

Lemma within_window_app (f : func_t) (l1 l2 : list Args) (s : State) :
  within_window f (l1 ++ l2) s =
    within_window f l1 s && within_window f l2 (run f l1 s).
Proof.
  revert s; induction l1 as [|a l1 IH]; intros s; cbn; auto.
  rewrite IH, andb_assoc; reflexivity.
Qed.

(** Whatever the run, the configuration stays and the count stays
    non-negative. *)
Lemma run_config (op : operation) (l : list Args) (s : State) :
  let s' := run (RateLimit_wrapper (call op)) l s in
  calls (self s') = calls (self s) /\ interval (self s') = interval (self s) /\
  raise_on_limit (self s') = raise_on_limit (self s) /\
  clock (self s') = clock (self s) /\
  (0 <= num_calls (self s) -> 0 <= num_calls (self s')).
Proof.
  revert s; induction l as [|a l IH]; intros s; cbn zeta; cbn [run]; [tauto|].
  specialize (IH (snd (RateLimit_wrapper (call op) a s))); cbn zeta in IH.
  destruct (wrapper_config op a s) as (Hc & Hi & Hr & Hk).
  destruct IH as (-> & -> & -> & -> & Hn).
  repeat split; auto.
  intros H0; apply Hn. rewrite wrapper_self.
  destruct (Z_lt_le_dec (elapsed_now s) (interval (self s))) as [Hw|Hw].
  - destruct (locked_block_in_window s Hw) as (-> & _); lia.
  - destruct (locked_block_elapsed s Hw) as (-> & _); lia.
Qed.

(** A run that stays inside the window counts its attempts and keeps the
    start of the window. *)
Lemma run_in_window (op : operation) (l : list Args) (s : State) :
  within_window (RateLimit_wrapper (call op)) l s = true ->
  let s' := run (RateLimit_wrapper (call op)) l s in
  num_calls (self s') = num_calls (self s) + Z.of_nat (length l) /\
  last_reset (self s') = last_reset (self s).
Proof.
  revert s; induction l as [|a l IH]; intros s; cbn zeta; cbn [run within_window].
  - intros _; cbn; split; [lia|reflexivity].
  - intros H; apply andb_true_iff in H; destruct H as [Hw H]; zbool.
    destruct (IH _ H) as (-> & ->). rewrite wrapper_self.
    destruct (locked_block_in_window s Hw) as (-> & -> & _).
    cbn [length]; split; [lia|reflexivity].
Qed.

(** The last attempt of a run inside the window is itself inside it. *)
Lemma last_in_window (f : func_t) (prev : list Args) (a : Args) (s : State) :
  within_window f (prev ++ [a]) s = true ->
  within_window f prev s = true /\
  elapsed_now (run f prev s) < interval (self (run f prev s)).
Proof.
  rewrite within_window_app; cbn [within_window].
  rewrite andb_true_r. intros H; apply andb_true_iff in H.
  destruct H as [H1 H2]; zbool; auto.
Qed.

(** C1. A limiter just built with [calls = m], and any run of attempts
    that all fall before the window elapses: an attempt that is among the
    first [m] runs the operation, and its result is the operation's; every
    later attempt is refused (with the exception, or silently when
    [raise_on_limit] is off) and the operation is not run.  So attempt
    [m + 1] is the first to be refused.  The preconditions [m >= 1] and
    [interval > 0] are not needed. *)
Theorem first_calls_granted (op : operation) (m d : Z) (rol : bool) (w : World)
        (prev : list Args) (a : Args) :
  let f := RateLimit_wrapper (call op) in
  let s0 := RateLimit_init m d rol w in
  within_window f (prev ++ [a]) s0 = true ->
  let sk := run f prev s0 in
  let k := Z.of_nat (length prev) + 1 in
  (k <= m ->
     f a sk = call op a (snd (locked_block sk)) /\
     trace (world (snd (f a sk))) = trace (world sk) ++ [Called a (fst (f a sk))]) /\
  (m < k ->
     f a sk = (if rol
               then Raise (RateLimitExc (RateLimitException_init (d - elapsed_now sk)))
               else Return PyNone,
               snd (locked_block sk)) /\
     trace (world (snd (f a sk))) = trace (world sk) /\
     store (world (snd (f a sk))) = store (world sk)).
Proof.
  intros f s0 Hw sk k.
  destruct (last_in_window _ _ _ _ Hw) as [Hprev Hlast]; fold sk in Hlast.
  destruct (run_in_window op prev s0 Hprev) as (Hn & _); fold f sk in Hn.
  destruct (run_config op prev s0) as (Hc & Hi & Hr & Hk & _); fold f sk in Hc, Hi, Hr, Hk.
  assert (Hm : monotonic_clock sk) by (unfold monotonic_clock; rewrite Hk; reflexivity).
  destruct (locked_block_world sk Hm) as (Ht & Hs & _).
  destruct (locked_block_in_window sk Hlast) as (_ & _ & Hx).
  rewrite Hn, Hc, Hr, Hi in Hx. cbn in Hx. fold k in Hx.
  split; intros Hk'.
  - destruct (k >? m) eqn:E; [zbool; lia|].
    unfold f at 1 2 3. rewrite (wrapper_fall_through _ _ _ Hx).
    split; [reflexivity|].
    destruct (call_world op a (snd (locked_block sk))) as (-> & _).
    rewrite Ht; reflexivity.
  - destruct (k >? m) eqn:E; [|zbool; lia].
    unfold f. destruct rol.
    + rewrite (wrapper_raised _ _ _ _ Hx); cbn [snd]; auto.
    + rewrite (wrapper_return_none _ _ _ Hx); cbn [snd]; auto.
Qed.

(** C3. A limiter that raises on the limit, and a run of attempts inside
    the window all made before the window elapses: the attempt that
    brings the count of the window to [K > calls] raises the rate limit
    exception, and the exception carries exactly
    [interval - (now - last_reset)], with [now] the clock reading that
    attempt took on entry. *)
Theorem rejection_time_remaining (op : operation) (s0 : State)
        (prev : list Args) (a : Args) :
  let f := RateLimit_wrapper (call op) in
  raise_on_limit (self s0) = true ->
  within_window f (prev ++ [a]) s0 = true ->
  let sk := run f prev s0 in
  let K := num_calls (self s0) + Z.of_nat (length prev) + 1 in
  calls (self s0) < K ->
  let now := fst (clock (self sk) (world sk)) in
  exists e,
    f a sk = (Raise (RateLimitExc e), snd (locked_block sk)) /\
    time_remaining e = interval (self s0) - (now - last_reset (self s0)).
Proof.
  intros f Hrol Hw sk K HK now.
  destruct (last_in_window _ _ _ _ Hw) as [Hprev Hlast]; fold sk in Hlast.
  destruct (run_in_window op prev s0 Hprev) as (Hn & Hl); fold f sk in Hn, Hl.
  destruct (run_config op prev s0) as (Hc & Hi & Hr & _); fold f sk in Hc, Hi, Hr.
  destruct (locked_block_in_window sk Hlast) as (_ & _ & Hx).
  rewrite Hn, Hc, Hr, Hi, Hrol in Hx. fold K in Hx.
  destruct (K >? calls (self s0)) eqn:E; [|zbool; lia].
  eexists; split; [apply (wrapper_raised _ _ _ _ Hx)|].
  cbn. unfold elapsed_now. rewrite Hl. reflexivity.
Qed.

(** ** The retry loop *)

Lemma after_sleep_trace (e : RateLimitException) (s : State) :
  trace (world (after_sleep e s)) = trace (world s) ++ rejection_events e.
Proof. cbn. rewrite <- app_assoc. reflexivity. Qed.

(** One iteration that caught the rate limit exception. *)
Lemma sleep_and_retry_caught (func : func_t) (fuel : nat) (a : Args)
      (s s1 : State) (e : RateLimitException) :
  func a s = (Raise (RateLimitExc e), s1) ->
  sleep_and_retry (S fuel) func a s =
    if time_remaining e <? 0
    then Some (Raise (ValueError "sleep length must be non-negative"),
               after_sleep e s1)
    else sleep_and_retry fuel func a (after_sleep e s1).
Proof.
  intros H; cbn [sleep_and_retry]; rewrite H.
  unfold time_sleep, logging_warning, after_sleep; cbn [self world].
  destruct (time_remaining e <? 0); reflexivity.
Qed.

(** One iteration that caught nothing. *)
Lemma sleep_and_retry_through (func : func_t) (fuel : nat) (a : Args)
      (s s1 : State) (o : outcome) :
  func a s = (o, s1) ->
  (forall e, o <> Raise (RateLimitExc e)) ->
  sleep_and_retry (S fuel) func a s = Some (o, s1).
Proof.
  intros H Ho; cbn [sleep_and_retry]; rewrite H.
  destruct o as [v|[e|m|e]]; try reflexivity.
  exfalso; apply (Ho e); reflexivity.
Qed.

(** However many iterations were rejected, the loop attempts again. *)
Lemma after_rejections_loop (func : func_t) (n fuel : nat) (a : Args)
      (s sn : State) :
  after_rejections n func a s = Some sn ->
  sleep_and_retry (n + fuel) func a s = sleep_and_retry fuel func a sn.
Proof.
  revert s; induction n as [|n IH]; intros s; cbn [after_rejections].
  - intros [= ->]; reflexivity.
  - destruct (func a s) as [[v|[e|m|e]] s1] eqn:E; try discriminate.
    destruct (time_remaining e <? 0) eqn:Et; [discriminate|].
    intros H. cbn [Nat.add]. rewrite (sleep_and_retry_caught _ _ _ _ _ _ E), Et.
    apply IH, H.
Qed.

(** The rate limit exception never leaves the loop. *)
Lemma sleep_and_retry_no_escape (func : func_t) (fuel : nat) (a : Args)
      (s s' : State) (o : outcome) :
  sleep_and_retry fuel func a s = Some (o, s') ->
  forall e, o <> Raise (RateLimitExc e).
Proof.
  revert s; induction fuel as [|fuel IH]; intros s; [discriminate|].
  destruct (func a s) as [o1 s1] eqn:E.
  destruct o1 as [v|[e1|m|e1]].
  - rewrite (sleep_and_retry_through _ fuel _ _ _ _ E) by discriminate.
    intros [= <- <-]; discriminate.
  - rewrite (sleep_and_retry_caught _ _ _ _ _ _ E).
    destruct (time_remaining e1 <? 0); [|apply IH].
    intros [= <- <-]; discriminate.
  - rewrite (sleep_and_retry_through _ fuel _ _ _ _ E) by discriminate.
    intros [= <- <-]; discriminate.
  - rewrite (sleep_and_retry_through _ fuel _ _ _ _ E) by discriminate.
    intros [= <- <-]; discriminate.
Qed.

(** C2. Whatever function the retry wrapper decorates and however its
    calls go, the wrapper never gives its caller the rate limit exception.
    After any number of rejected iterations, a return value or any other
    exception of the decorated function is what the caller gets, in the
    state the function left: nothing is logged, slept or called again.
    For the rate-limited operation: when the block lets the call through
    and the operation ends with anything but the rate limit exception,
    the caller gets exactly the result of that one call. *)
Theorem gate_propagation (func : func_t) (op : operation) (n fuel : nat)
        (a : Args) (s sn s1 : State) (o : outcome) :
  (forall o' s', sleep_and_retry fuel func a s = Some (o', s') ->
                 forall e, o' <> Raise (RateLimitExc e)) /\
  (after_rejections n func a s = Some sn ->
   func a sn = (o, s1) ->
   (forall e, o <> Raise (RateLimitExc e)) ->
   sleep_and_retry (n + S fuel) func a s = Some (o, s1)) /\
  (let f := RateLimit_wrapper (call op) in
   after_rejections n f a s = Some sn ->
   fst (locked_block sn) = FallThrough ->
   let r := call op a (snd (locked_block sn)) in
   (forall e, fst r <> Raise (RateLimitExc e)) ->
   sleep_and_retry (n + S fuel) f a s = Some r).
Proof.
  split; [|split].
  - intros o' s' H. exact (sleep_and_retry_no_escape _ _ _ _ _ _ H).
  - intros Hn Hf Ho.
    rewrite (after_rejections_loop _ _ (S fuel) _ _ _ Hn).
    exact (sleep_and_retry_through _ _ _ _ _ _ Hf Ho).
  - intros f Hn Hx r Ho.
    rewrite (after_rejections_loop _ _ (S fuel) _ _ _ Hn).
    rewrite (surjective_pairing r).
    apply sleep_and_retry_through; [|exact Ho].
    unfold f; rewrite (wrapper_fall_through _ _ _ Hx).
    apply surjective_pairing.
Qed.

(** With [calls >= 1] the limiter only refuses inside the window, so the
    time it reports is positive. *)
Lemma limiter_rejection_positive (s : State) (e : RateLimitException) :
  1 <= calls (self s) ->
  fst (locked_block s) = Raised e ->
  0 < time_remaining e.
Proof.
  intros Hc Hx.
  destruct (Z_lt_le_dec (elapsed_now s) (interval (self s))) as [Hw|Hw].
  - destruct (locked_block_in_window s Hw) as (_ & _ & H). rewrite H in Hx.
    destruct (_ >? _); [|discriminate].
    destruct (raise_on_limit _); [|discriminate].
    injection Hx as <-. cbn. lia.
  - destruct (locked_block_elapsed s Hw) as (_ & _ & H). rewrite H in Hx.
    destruct (1 >? calls (self s)) eqn:E; [zbool; lia|discriminate].
Qed.

Lemma limiter_raises_or_passes (s : State) :
  raise_on_limit (self s) = true ->
  fst (locked_block s) <> ReturnNone.
Proof.
  intros Hr. rewrite locked_block_open; cbn zeta.
  destruct (_ <=? 0); cbn [fst]; unfold limit_test; cbn; rewrite Hr;
    destruct (_ >? _); discriminate.
Qed.

(** When the loop over the rate-limited operation ends, it ends on a call
    of the operation, after rejections that were each slept out. *)
Lemma gate_ends_on_call (op : operation) (fuel : nat) (a : Args)
      (s s' : State) (o : outcome) :
  1 <= calls (self s) ->
  raise_on_limit (self s) = true ->
  monotonic_clock s ->
  own_failures_only op ->
  sleep_and_retry fuel (RateLimit_wrapper (call op)) a s = Some (o, s') ->
  exists rejs,
    trace (world s') =
      trace (world s) ++ flat_map rejection_events rejs ++ [Called a o] /\
    Forall (fun e => 0 < time_remaining e) rejs /\
    (length rejs < fuel)%nat.
Proof.
  intros Hc Hr Hm Hop.
  revert s Hc Hr Hm; induction fuel as [|fuel IH]; intros s Hc Hr Hm; [discriminate|].
  destruct (locked_block_world s Hm) as (Ht & _).
  destruct (locked_block_self s) as (Hc1 & _ & Hr1 & Hk1 & _). cbn zeta in *.
  destruct (fst (locked_block s)) as [| |e] eqn:Hx.
  - assert (Hf := wrapper_fall_through (call op) a s Hx).
    rewrite (surjective_pairing (call op a _)) in Hf.
    rewrite (sleep_and_retry_through _ fuel _ _ _ _ Hf).
    + intros [= <- <-].
      exists []; cbn [flat_map app length]. repeat split; [|constructor|lia].
      destruct (call_world op a (snd (locked_block s))) as (-> & _).
      rewrite Ht; reflexivity.
    + intros e. unfold call. specialize (Hop a (store (world (snd (locked_block s)))) e).
      destruct (op a _); exact Hop.
  - exfalso; exact (limiter_raises_or_passes s Hr Hx).
  - assert (Hpos := limiter_rejection_positive s e Hc Hx).
    rewrite (sleep_and_retry_caught _ _ _ _ _ _ (wrapper_raised (call op) a s e Hx)).
    destruct (time_remaining e <? 0) eqn:E; [zbool; lia|].
    intros H. apply IH in H.
    + destruct H as (rejs & Htr & Hall & Hlen).
      exists (e :: rejs). rewrite Htr, after_sleep_trace, Ht.
      cbn [flat_map length]. rewrite <- !app_assoc.
      repeat split; [constructor; assumption|lia].
    + cbn [after_sleep self]; congruence.
    + cbn [after_sleep self]; congruence.
    + unfold monotonic_clock in *; cbn [after_sleep self]; congruence.
Qed.

(** C5. For a rejection [e] caught by the retry wrapper, what is logged and
    then passed to the sleep primitive is exactly [time_remaining e], and
    the loop attempts the same call again (a negative duration makes the
    sleep primitive raise).  There is no cap: after [n] rejected
    iterations, whatever [n], the loop goes on as from the start.  Over
    the rate-limited operation, with [calls >= 1], [raise_on_limit] on and
    an operation that does not raise the rate limit exception itself, the
    loop can only end on a call of the operation whose result is the
    loop's result, every rejection before it having been slept out for
    its own time remaining. *)
Theorem retry_loop (func : func_t) (op : operation) (n fuel : nat) (a : Args)
        (s s1 sn s' : State) (e : RateLimitException) (o : outcome) :
  (func a s = (Raise (RateLimitExc e), s1) ->
   trace (world (after_sleep e s1)) =
     trace (world s1) ++ [Warned e; Slept (time_remaining e)] /\
   sleep_and_retry (S fuel) func a s =
     if time_remaining e <? 0
     then Some (Raise (ValueError "sleep length must be non-negative"),
                after_sleep e s1)
     else sleep_and_retry fuel func a (after_sleep e s1)) /\
  (after_rejections n func a s = Some sn ->
   sleep_and_retry (n + fuel) func a s = sleep_and_retry fuel func a sn) /\
  (1 <= calls (self s) ->
   raise_on_limit (self s) = true ->
   monotonic_clock s ->
   own_failures_only op ->
   sleep_and_retry fuel (RateLimit_wrapper (call op)) a s = Some (o, s') ->
   exists rejs,
     trace (world s') =
       trace (world s) ++ flat_map rejection_events rejs ++ [Called a o] /\
     Forall (fun e => 0 < time_remaining e) rejs /\
     (length rejs < fuel)%nat).
Proof.
  split; [|split].
  - intros H; split; [apply after_sleep_trace|].
    exact (sleep_and_retry_caught _ _ _ _ _ _ H).
  - apply after_rejections_loop.
  - apply gate_ends_on_call.
Qed.

(** C10. A limiter built with [raise_on_limit = False] under the retry
    wrapper, its count already at [calls] inside the window: the first
    iteration of the loop returns [None].  Nothing is raised for the loop
    to catch, so the trace gains no sleep and no call of the operation,
    and the store of the operation is untouched. *)
Theorem gate_over_silent_limiter (op : operation) (fuel : nat) (a : Args) (s : State) :
  monotonic_clock s ->
  raise_on_limit (self s) = false ->
  elapsed_now s < interval (self s) ->
  calls (self s) < num_calls (self s) + 1 ->
  let s' := snd (locked_block s) in
  sleep_and_retry (S fuel) (RateLimit_wrapper (call op)) a s
    = Some (Return PyNone, s') /\
  trace (world s') = trace (world s) /\
  store (world s') = store (world s).
Proof.
  intros Hm Hr Hw Hk; cbn zeta.
  destruct (locked_block_in_window s Hw) as (_ & _ & Hx).
  rewrite Hr in Hx.
  destruct (_ >? _) eqn:E in Hx; [|zbool; lia].
  destruct (locked_block_world s Hm) as (Ht & Hs & _).
  repeat split; auto.
  apply sleep_and_retry_through; [|discriminate].
  apply wrapper_return_none, Hx.
Qed.

(** C9. A limiter built with [calls = 0], after any run of attempts: the
    next attempt is refused, whichever side of the window boundary it
    falls on, and the operation is not run.  When the window has elapsed
    the attempt still resets: it leaves [num_calls] at 1 (zeroed, then
    incremented) and [last_reset] at the clock reading taken for the
    reset; the exception carries the time remaining computed before the
    reset, which is at most 0, and that is the duration the retry wrapper
    hands to the sleep primitive. *)
Theorem zero_calls_limiter (op : operation) (d : Z) (rol : bool) (w : World)
        (prev : list Args) (a : Args) (fuel : nat) :
  let f := RateLimit_wrapper (call op) in
  let sk := run f prev (RateLimit_init 0 d rol w) in
  let e := RateLimitException_init (d - elapsed_now sk) in
  let s' := snd (locked_block sk) in
  (f a sk = (if rol then Raise (RateLimitExc e) else Return PyNone, s') /\
   trace (world s') = trace (world sk) /\
   store (world s') = store (world sk)) /\
  (d <= elapsed_now sk ->
   time_remaining e <= 0 /\
   num_calls (self s') = 1 /\
   last_reset (self s') = mono (world sk) (S (reads (world sk))) /\
   (rol = true ->
    trace (world (after_sleep e s')) =
      trace (world sk) ++ [Warned e; Slept (time_remaining e)] /\
    sleep_and_retry (S fuel) f a sk =
      if time_remaining e <? 0
      then Some (Raise (ValueError "sleep length must be non-negative"),
                 after_sleep e s')
      else sleep_and_retry fuel f a (after_sleep e s'))).
Proof.
  intros f sk e s'.
  destruct (run_config op prev (RateLimit_init 0 d rol w)) as (Hc & Hi & Hr & Hk & Hn).
  fold f sk in Hc, Hi, Hr, Hk, Hn. cbn in Hc, Hi, Hr, Hk, Hn.
  specialize (Hn (Z.le_refl 0)).
  assert (Hm : monotonic_clock sk) by exact Hk.
  destruct (locked_block_world sk Hm) as (Ht & Hs & _). fold s' in Ht, Hs.
  assert (Hx : fst (locked_block sk) = if rol then Raised e else ReturnNone).
  { destruct (Z_lt_le_dec (elapsed_now sk) (interval (self sk))) as [Hw|Hw].
    - destruct (locked_block_in_window sk Hw) as (_ & _ & ->).
      rewrite Hc, Hr, Hi. destruct (_ >? 0) eqn:E; [reflexivity|zbool; lia].
    - destruct (locked_block_elapsed sk Hw) as (_ & _ & ->).
      rewrite Hc, Hr, Hi. reflexivity. }
  assert (Hf : f a sk = (if rol then Raise (RateLimitExc e) else Return PyNone, s')).
  { unfold f, s'. destruct rol.
    - apply wrapper_raised, Hx.
    - apply wrapper_return_none, Hx. }
  split; [auto|].
  intros Hw. rewrite <- Hi in Hw.
  destruct (locked_block_elapsed sk Hw) as (Hn1 & Hl & _). fold s' in Hn1, Hl.
  rewrite Hk in Hl. cbn in Hl.
  split; [cbn; rewrite <- Hi; lia|].
  split; [exact Hn1|]. split; [exact Hl|].
  intros Hrol. split.
  - rewrite after_sleep_trace, Ht. reflexivity.
  - rewrite Hrol in Hf. exact (sleep_and_retry_caught _ _ _ _ _ _ Hf).
Qed.

(** ** Threads *)

Lemma count_cons (f : pc -> bool) (p : pc) (l : list pc) :
  count f (p :: l) = (Nat.b2n (f p) + count f l)%nat.
Proof. unfold count; cbn [filter]; destruct (f p); reflexivity. Qed.

Lemma count_set_pc (f : pc -> bool) (l : list pc) (t : nat) (p q : pc) :
  nth_error l t = Some p ->
  (count f (set_pc t q l) + Nat.b2n (f p) = count f l + Nat.b2n (f q))%nat.
Proof.
  revert t; induction l as [|x l IH]; intros [|t]; cbn [nth_error set_pc];
    try discriminate.
  - intros [= ->]. rewrite !count_cons. lia.
  - intros H. rewrite !count_cons. specialize (IH t H). lia.
Qed.

Lemma count_member (f : pc -> bool) (l : list pc) (t : nat) (p : pc) :
  nth_error l t = Some p -> f p = true -> (1 <= count f l)%nat.
Proof.
  revert t; induction l as [|x l IH]; intros [|t]; cbn [nth_error];
    try discriminate; rewrite count_cons.
  - intros [= ->] ->; cbn; lia.
  - intros H Hf. specialize (IH t H Hf). lia.
Qed.

Lemma count_le (f g : pc -> bool) (l : list pc) :
  (forall p, f p = true -> g p = true) -> (count f l <= count g l)%nat.
Proof.
  intros Hfg; induction l as [|x l IH]; [reflexivity|].
  rewrite !count_cons. specialize (Hfg x).
  destruct (f x); cbn; [rewrite Hfg by reflexivity; cbn|]; lia.
Qed.

Lemma count_repeat (f : pc -> bool) (p : pc) (n : nat) :
  f p = false -> count f (repeat p n) = 0%nat.
Proof.
  intros Hf; induction n as [|n IH]; [reflexivity|].
  cbn [repeat]; rewrite count_cons, Hf, IH; reflexivity.
Qed.

Lemma count_finished_split (l : list pc) :
  count is_finished l = (count is_granted l + count is_refused l)%nat.
Proof.
  induction l as [|x l IH]; [reflexivity|].
  rewrite !count_cons, IH. destruct x as [| | | | | | |[| |e]]; cbn; lia.
Qed.

Lemma forallb_member (g : pc -> bool) (l : list pc) (t : nat) (p : pc) :
  forallb g l = true -> nth_error l t = Some p -> g p = true.
Proof.
  intros Hg Hp. rewrite forallb_forall in Hg.
  apply Hg. eapply nth_error_In, Hp.
Qed.

Lemma forallb_set_pc (g : pc -> bool) (l : list pc) (t : nat) (q : pc) :
  forallb g l = true -> g q = true -> forallb g (set_pc t q l) = true.
Proof.
  revert t; induction l as [|x l IH]; intros [|t]; cbn [forallb set_pc]; auto;
    intros H Hq; apply andb_true_iff in H; destruct H as [Hx Hl];
    apply andb_true_iff; auto.
Qed.

Lemma nth_error_set_pc (l : list pc) (t t' : nat) (p q : pc) :
  nth_error l t = Some p ->
  nth_error (set_pc t q l) t' = if Nat.eqb t t' then Some q else nth_error l t'.
Proof.
  revert t t'; induction l as [|x l IH]; intros [|t] [|t']; cbn; try discriminate; auto.
Qed.

Lemma lock_inv_count (thr : list pc) (l : RLock) :
  lock_inv thr l -> (count in_block thr <= 1)%nat.
Proof. intros [[-> _]|[-> _]]; lia. Qed.

(** A thread takes the lock only when no thread is in the block. *)
Lemma lock_inv_enter (thr : list pc) (l : RLock) (t : nat) :
  lock_inv thr l ->
  nth_error thr t = Some AtAcquire ->
  RLock_free l t = true ->
  lock_inv (set_pc t AtElapsed thr) (RLock_acquire t l).
Proof.
  intros [[Hn ->]|[Hn (t' & p' & -> & Hp' & Hin)]] Hp Hfree.
  - right. pose proof (count_set_pc in_block thr t _ AtElapsed Hp) as Hc.
    cbn in Hc. split; [lia|].
    exists t, AtElapsed. repeat split.
    rewrite (nth_error_set_pc _ _ t _ AtElapsed Hp), Nat.eqb_refl; reflexivity.
  - unfold RLock_free in Hfree; cbn in Hfree.
    apply Nat.eqb_eq in Hfree; subst t'.
    rewrite Hp in Hp'; injection Hp' as <-; discriminate.
Qed.

Lemma lock_inv_move (thr : list pc) (l : RLock) (t : nat) (p q : pc) :
  lock_inv thr l ->
  nth_error thr t = Some p -> in_block p = true -> in_block q = true ->
  lock_inv (set_pc t q thr) l.
Proof.
  intros Hl Hp Hip Hiq.
  pose proof (count_set_pc in_block thr t _ q Hp) as Hc.
  pose proof (count_member in_block thr t p Hp Hip) as H1.
  rewrite Hip, Hiq in Hc.
  destruct Hl as [[Hn ->]|[Hn (t' & p' & -> & Hp' & Hin)]]; [lia|].
  right; split; [lia|].
  destruct (Nat.eqb t t') eqn:E.
  - exists t', q. rewrite (nth_error_set_pc _ _ t' _ q Hp), E; auto.
  - exists t', p'. rewrite (nth_error_set_pc _ _ t' _ q Hp), E; auto.
Qed.

Lemma lock_inv_leave (thr : list pc) (l : RLock) (t : nat) (p q : pc) :
  lock_inv thr l ->
  nth_error thr t = Some p -> in_block p = true -> in_block q = false ->
  lock_inv (set_pc t q thr) (RLock_release l).
Proof.
  intros Hl Hp Hip Hiq.
  pose proof (count_set_pc in_block thr t _ q Hp) as Hc.
  pose proof (count_member in_block thr t p Hp Hip) as H1.
  rewrite Hip, Hiq in Hc.
  destruct Hl as [[Hn ->]|[Hn (t' & p' & -> & Hp' & Hin)]]; [lia|].
  left; split; [cbn in Hc; lia|reflexivity].
Qed.

(** How the counts of the invariant change when thread [t] moves. *)
Ltac recount Hp q :=
  pose proof (count_set_pc is_finished _ _ _ q Hp);
  pose proof (count_set_pc at_limit _ _ _ q Hp);
  pose proof (count_set_pc is_granted _ _ _ q Hp);
  cbn [is_finished at_limit is_granted Nat.b2n] in *.

(** One move of one thread keeps the invariant of the race. *)
Lemma sys_step_inv (m : nat) (d t0 : Z) (b : bool) (clk : nat -> Z)
      (t : nat) (sys : System) :
  (forall i, clk i - t0 < d) ->
  race_inv m d t0 b clk sys ->
  race_inv m d t0 b clk (sys_step t sys).
Proof.
  intros Hwin Hinv. pose proof Hinv as Hinv0.
  destruct sys as [thr s]. unfold sys_step; cbn [threads shared].
  destruct (nth_error thr t) as [p|] eqn:Hp; [|exact Hinv0].
  destruct Hinv as ((Hc & Hi & Hr & Hk & Hl & Hmono) & Hsw & Hn & Hg & Hlock).
  cbn [threads shared] in *.
  pose proof (forallb_member _ _ _ _ Hsw Hp) as Hpok.
  destruct p as [| |pr|pr|pr|pr|pr|x]; cbn [thread_step].
  - (* the lock is taken, or the thread waits *)
    destruct (RLock_free (lock (self s)) t) eqn:Hfree; [|exact Hinv0].
    recount Hp (@AtElapsed).
    unfold race_inv; cbn [threads shared self world set_lock calls interval
      raise_on_limit clock last_reset num_calls lock].
    repeat split; auto using forallb_set_pc, lock_inv_enter.
    + rewrite Hn; f_equal; lia.
    + lia.
  - (* the clock is read *)
    unfold call_clock; rewrite Hk; cbn [time_monotonic self world].
    set (pr := interval (self s) - (mono (world s) (reads (world s)) - last_reset (self s))).
    assert (Hpr : 0 < pr).
    { unfold pr. rewrite Hi, Hl, Hmono. specialize (Hwin (reads (world s))). lia. }
    recount Hp (AtWindowTest pr).
    unfold race_inv; cbn [threads shared self world mono].
    repeat split; auto.
    + apply forallb_set_pc; [assumption|]. cbn. apply Z.ltb_lt, Hpr.
    + rewrite Hn; f_equal; lia.
    + lia.
    + eapply lock_inv_move; eauto.
  - (* the window has not elapsed *)
    cbn [same_window] in Hpok. zbool.
    destruct (pr <=? 0) eqn:E; [zbool; lia|].
    recount Hp (AtIncrement pr).
    unfold race_inv; cbn [threads shared].
    repeat split; auto.
    + apply forallb_set_pc; auto.
    + rewrite Hn; f_equal; lia.
    + lia.
    + eapply lock_inv_move; eauto.
  - discriminate Hpok.
  - discriminate Hpok.
  - (* the count goes up by one *)
    recount Hp (AtLimitTest pr).
    unfold race_inv; cbn [threads shared self world set_num_calls calls interval
      raise_on_limit clock last_reset num_calls lock].
    repeat split; auto.
    + apply forallb_set_pc; auto.
    + rewrite Hn. lia.
    + lia.
    + eapply lock_inv_move; eauto.
  - (* the count is compared with the limit and the lock released *)
    pose proof (count_member at_limit thr t _ Hp eq_refl) as Hat1.
    pose proof (count_le at_limit in_block thr) as Hat2.
    pose proof (lock_inv_count _ _ Hlock) as Hin.
    assert (Hat : count at_limit thr = 1%nat).
    { assert (count at_limit thr <= count in_block thr)%nat; [|lia].
      apply Hat2. intros [| | | | | | |]; cbn; congruence. }
    set (x := limit_test (self s) pr).
    assert (Hx : is_granted (Finished x) = negb (Z.of_nat m <? num_calls (self s))).
    { unfold x, limit_test. rewrite Hc, Z.gtb_ltb.
      destruct (_ <? _); [destruct (raise_on_limit _)|]; reflexivity. }
    recount Hp (Finished x). rewrite Hx in *.
    unfold race_inv; cbn [threads shared self world set_lock calls interval
      raise_on_limit clock last_reset num_calls lock].
    repeat split; auto.
    + apply forallb_set_pc; auto.
    + rewrite Hn. f_equal. lia.
    + destruct (Z.of_nat m <? num_calls (self s)) eqn:E; zbool;
        cbn [negb Nat.b2n] in *; lia.
    + eapply lock_inv_leave; eauto.
  - exact Hinv0.
Qed.

Lemma exec_inv (m : nat) (d t0 : Z) (b : bool) (clk : nat -> Z)
      (sched : list nat) (sys : System) :
  (forall i, clk i - t0 < d) ->
  race_inv m d t0 b clk sys ->
  race_inv m d t0 b clk (exec sched sys).
Proof.
  intros Hwin; revert sys; induction sched as [|t sched IH]; intros sys H; cbn [exec].
  - exact H.
  - apply IH, sys_step_inv; assumption.
Qed.

Lemma race_inv_start (n m : nat) (d : Z) (b : bool) (w : World) :
  race_inv m d (mono w (reads w)) b (mono w) (race n (Z.of_nat m) d b w).
Proof.
  unfold race_inv, race, lock_inv; cbn [threads shared].
  rewrite !count_repeat by reflexivity.
  repeat split; auto.
  induction n; cbn; auto.
Qed.

(** C7. Threads racing on the wrapper of a limiter just built with
    [calls = m], all within one window, under any schedule: at every
    moment at most one thread is inside the locked block, and at most
    [m] threads have left it towards the wrapped call; once all
    [m + M] threads have left the block, exactly [m] were let through
    and exactly [M] refused. *)
Theorem race_grants (m M : nat) (d : Z) (rol : bool) (w : World)
        (sched : list nat) :
  (forall i, mono w i - mono w (reads w) < d) ->
  let sys := exec sched (race (m + M) (Z.of_nat m) d rol w) in
  (count in_block (threads sys) <= 1)%nat /\
  (count is_granted (threads sys) <= m)%nat /\
  (count is_finished (threads sys) = (m + M)%nat ->
   count is_granted (threads sys) = m /\ count is_refused (threads sys) = M).
Proof.
  intros Hwin sys.
  pose proof (exec_inv m d _ rol _ sched _ Hwin (race_inv_start (m + M) m d rol w)) as Hinv.
  fold sys in Hinv. destruct Hinv as (_ & _ & _ & Hg & Hlock).
  pose proof (count_finished_split (threads sys)) as Hsplit.
  split; [exact (lock_inv_count _ _ Hlock)|]. split; [lia|].
  intros Hall. lia.
Qed.

(** A thread that runs alone goes through the block as the sequential
    wrapper does. *)
Lemma thread_run_block (s : State) :
  RLock_free (lock (self s)) main_thread = true ->
  thread_run 7 main_thread AtAcquire s =
    (Finished (fst (locked_block s)), snd (locked_block s)).
Proof.
  intros Hfree. rewrite locked_block_open; cbn zeta.
  destruct s as [r w]; cbn [self world] in *.
  cbn [thread_run thread_step self world]. rewrite Hfree.
  cbn [thread_step]. unfold call_clock; cbn [self world set_lock clock].
  destruct (clock r w) as [now w1].
  cbn [thread_step fst snd self world set_lock interval last_reset].
  destruct (interval r - (now - last_reset r) <=? 0).
  - cbn [thread_step]. unfold call_clock; cbn [self world set_num_calls set_lock clock].
    destruct (clock r w1) as [now' w2].
    reflexivity.
  - reflexivity.
Qed.

End GateProperties.

(** * The theorems at work on concrete limiters *)

(** Closed comparisons, by evaluation. *)
Ltac by_eval :=
vm_compute; first [reflexivity | discriminate | intro; discriminate].

Section Witnesses.

Import Sample.

Local Abbreviation sample_clock := [0; 0; 1; 2; 10; 10; 11].

(** The scenario of the specification: [calls = 2], [interval = 10];
    calls at times 0 and 1 go through, the call at time 2 is refused with
    8 left, the retry wrapper sleeps 8 and its retry at time 10 goes
    through with the count back at 1. *)
Example scenario_2_10 :
  fst third_call = Return (PyData 3) /\
  num_calls (self (snd third_call)) = 1 /\
  last_reset (self (snd third_call)) = 10 /\
  trace (world (snd third_call))
    = [Called tt (Return (PyData 1)); Called tt (Return (PyData 2));
       Warned (RateLimitException_init 8); Slept 8;
       Called tt (Return (PyData 3))].
Proof. vm_compute. repeat split. Qed.

(** [calls = 1], [interval = 10], three calls in a row at times 1, 2 and
    3 without the retry wrapper: the second and the third are refused,
    with 8 and then 7 left. *)
Example scenario_three_in_a_row :
  let s0 := RateLimit_init 1 10 true (sample_world [0; 1; 2; 3]) in
  fst (gated fetch tt (run (gated fetch) [tt] s0))
    = Raise (RateLimitExc (RateLimitException_init 8)) /\
  fst (gated fetch tt (run (gated fetch) [tt; tt] s0))
    = Raise (RateLimitExc (RateLimitException_init 7)).
Proof. vm_compute. split; reflexivity. Qed.

(** Two calls in the window go through; the third is refused with 8 left. *)
Lemma first_calls_granted_witness :
  fst (gated fetch tt (run (gated fetch) [tt] (limiter_2_10 true)))
    = Return (PyData 2) /\
  fst (gated fetch tt (after_two true))
    = Raise (RateLimitExc (RateLimitException_init 8)).
Proof.
  split.
  - pose proof (first_calls_granted fetch 2 10 true (sample_world sample_clock)
                  [tt] tt eq_refl) as H.
    cbv zeta in H. destruct H as [H _].
    destruct (H ltac:(cbn; lia)) as [H1 _].
    unfold gated, limiter_2_10. rewrite H1. reflexivity.
  - pose proof (first_calls_granted fetch 2 10 true (sample_world sample_clock)
                  [tt; tt] tt eq_refl) as H.
    cbv zeta in H. destruct H as [_ H].
    destruct (H ltac:(cbn; lia)) as [H1 _].
    unfold gated, after_two, limiter_2_10, gated. rewrite H1. reflexivity.
Defined.

(** The third call of the window is refused and told to wait 10 - (2 - 0). *)
Lemma rejection_time_remaining_witness :
  exists e,
    fst (gated fetch tt (after_two true)) = Raise (RateLimitExc e) /\
    time_remaining e = 10 - (2 - 0).
Proof.
  destruct (rejection_time_remaining fetch (limiter_2_10 true) [tt; tt] tt
              eq_refl eq_refl ltac:(cbn; lia)) as (e & H1 & H2).
  exists e. split.
  - unfold gated, after_two, gated. rewrite H1. reflexivity.
  - exact H2.
Defined.

(** Inside the window the count goes from 2 to 3 on a refused call; at
    time 10 the next call goes through and the count is 1. *)
Lemma count_discipline_witness :
  num_calls (self (snd (gated fetch tt (after_two true)))) = 2 + 1 /\
  num_calls (self (snd (gated fetch tt
                          (run (gated fetch) [tt; tt; tt] (limiter_2_10 true))))) = 1.
Proof.
  split.
  - destruct (count_discipline fetch tt (after_two true) ltac:(by_eval))
      as (H & _ & _).
    exact (H ltac:(by_eval)).
  - destruct (count_discipline fetch tt
                (run (gated fetch) [tt; tt; tt] (limiter_2_10 true))
                ltac:(by_eval)) as (_ & H & _).
    exact (proj1 (H ltac:(by_eval))).
Defined.

(** The failure of the operation reaches the caller as it is, after one
    rejection slept out; the rate limit exception does not. *)
Lemma gate_propagation_witness :
  api_request (1 + 1) broken tt (after_two true)
    = Some (call broken tt (snd (locked_block after_one_rejection))) /\
  fst (call broken tt (snd (locked_block after_one_rejection)))
    = Raise (OtherExc "HTTPError") /\
  (forall e, fst third_call <> Raise (RateLimitExc e)).
Proof.
  destruct (gate_propagation (gated fetch) broken 1 0 tt (after_two true)
              after_one_rejection after_one_rejection (Return PyNone))
    as (_ & _ & H3).
  destruct (gate_propagation (gated fetch) fetch 0 5 tt (after_two true)
              (after_two true) (after_two true) (Return PyNone))
    as (H1 & _ & _).
  split; [|split].
  - refine (H3 _ _ _); [by_eval|by_eval|intros e; by_eval].
  - by_eval.
  - refine (H1 (fst third_call) (snd third_call) _). by_eval.
Defined.

(** The third call sleeps exactly the 8 it was told, tries again, and ends
    on the call of the operation. *)
Lemma retry_loop_witness :
  (trace (world after_one_rejection)
     = trace (world (snd (locked_block (after_two true))))
         ++ [Warned (RateLimitException_init 8); Slept 8] /\
   api_request 5 fetch tt (after_two true)
     = api_request 4 fetch tt after_one_rejection) /\
  api_request (1 + 4) fetch tt (after_two true)
    = api_request 4 fetch tt after_one_rejection /\
  exists rejs,
    trace (world (snd third_call))
      = trace (world (after_two true))
          ++ flat_map rejection_events rejs ++ [Called tt (fst third_call)] /\
    Forall (fun e => 0 < time_remaining e) rejs /\
    (length rejs < 5)%nat.
Proof.
  destruct (retry_loop (gated fetch) fetch 1 4 tt (after_two true)
              (snd (locked_block (after_two true))) after_one_rejection
              (after_two true) (RateLimitException_init 8) (Return PyNone))
    as (H1 & H2 & _).
  destruct (retry_loop (gated fetch) fetch 0 5 tt (after_two true)
              (after_two true) (after_two true)
              (snd third_call) (RateLimitException_init 8) (fst third_call))
    as (_ & _ & H3).
  split; [|split].
  - assert (G := H1 ltac:(by_eval)). split; [exact (proj1 G)|].
    unfold api_request, after_one_rejection. rewrite (proj2 G). reflexivity.
  - assert (G := H2 ltac:(by_eval)). unfold api_request. exact G.
  - assert (Hop : own_failures_only fetch) by (intros a st e; discriminate).
    exact (H3 ltac:(by_eval) ltac:(by_eval) ltac:(by_eval) Hop ltac:(by_eval)).
Defined.

(** With [raise_on_limit] off the third call returns [None] and the
    operation has still run twice only. *)
Lemma silent_drop_witness :
  fst (gated fetch tt (after_two false)) = Return PyNone /\
  store (world (snd (gated fetch tt (after_two false)))) = 2%nat.
Proof.
  destruct (silent_drop fetch tt (after_two false) eq_refl eq_refl
              ltac:(by_eval) ltac:(by_eval)) as (H1 & _ & H3).
  split.
  - unfold gated. rewrite H1. reflexivity.
  - exact H3.
Defined.

(** The same limiter under the retry wrapper: [None] at the first
    iteration, the trace as it was. *)
Lemma gate_over_silent_limiter_witness :
  api_request 1 fetch tt (after_two false)
    = Some (Return PyNone, snd (locked_block (after_two false))) /\
  trace (world (snd (locked_block (after_two false))))
    = trace (world (after_two false)).
Proof.
  destruct (gate_over_silent_limiter fetch 0 tt (after_two false) eq_refl eq_refl
              ltac:(by_eval) ltac:(by_eval)) as (H1 & H2 & _).
  split; assumption.
Defined.

(** A refused call changes the count of the limiter and nothing else. *)
Lemma wrapper_frame_witness :
  self (snd (gated fetch tt (after_two true)))
    = set_last_reset 0 (set_num_calls 3 (self (after_two true))).
Proof.
  destruct (wrapper_frame fetch tt (after_two true)) as (_ & H).
  exact (H eq_refl).
Defined.

(** [calls = 0]: the call at time 12 resets the window and is refused with
    -2 left, on which the sleep primitive raises. *)
Lemma zero_calls_limiter_witness :
  let s := run (gated fetch) [tt] limiter_0_10 in
  fst (gated fetch tt s) = Raise (RateLimitExc (RateLimitException_init (-2))) /\
  num_calls (self (snd (gated fetch tt s))) = 1 /\
  last_reset (self (snd (gated fetch tt s))) = 12 /\
  api_request 1 fetch tt s
    = Some (Raise (ValueError "sleep length must be non-negative"),
            after_sleep (RateLimitException_init (-2)) (snd (locked_block s))).
Proof.
  intros s.
  destruct (zero_calls_limiter fetch 10 true (sample_world [0; 3; 12; 12; 13])
              [tt] tt 0) as ((H1 & _) & H2).
  destruct (H2 ltac:(by_eval)) as (_ & H3 & H4 & H5).
  destruct (H5 eq_refl) as (_ & H6).
  split; [|split; [|split]].
  - unfold gated, s, limiter_0_10, gated. rewrite H1. reflexivity.
  - exact H3.
  - exact H4.
  - exact H6.
Defined.

(** Three threads and one slot, interleaved: one is let through, two are
    refused. *)
Lemma race_grants_witness :
  let sys := exec schedule (race 3 1 10 true (sample_world [0; 1; 2; 3])) in
  count is_granted (threads sys) = 1%nat /\
  count is_refused (threads sys) = 2%nat.
Proof.
  intros sys.
  assert (Hwin : forall i,
             mono (sample_world [0; 1; 2; 3]) i
             - mono (sample_world [0; 1; 2; 3]) (reads (sample_world [0; 1; 2; 3]))
             < 10).
  { intros i. do 4 (destruct i as [|i]; [by_eval|]). destruct i; by_eval. }
  destruct (race_grants 1 2 10 true (sample_world [0; 1; 2; 3]) schedule Hwin)
    as (_ & _ & H).
  exact (H eq_refl).
Defined.

End Witnesses.

(** * Dictionaries and objects *)

Section Dictionaries.

Context {V : Type}.

Lemma dict_get_remove_same (k : String.string) (d : dict_of V) :
  dict_get k (dict_remove k d) = None.
Proof.
  induction d as [|[k' v] d IH]; cbn; [reflexivity|].
  destruct (String.eqb k k') eqn:E; [exact IH|].
  cbn; rewrite E; exact IH.
Qed.

Lemma dict_get_remove_other (k k' : String.string) (d : dict_of V) :
  k <> k' -> dict_get k' (dict_remove k d) = dict_get k' d.
Proof.
  intros Hk; induction d as [|[k0 v] d IH]; cbn; [reflexivity|].
  destruct (String.eqb k k0) eqn:E.
  - apply String.eqb_eq in E; subst k0.
    destruct (String.eqb k' k) eqn:E'; [apply String.eqb_eq in E'; congruence|exact IH].
  - cbn. destruct (String.eqb k' k0); [reflexivity|exact IH].
Qed.

Lemma dict_get_set_same (k : String.string) (v : V) (d : dict_of V) :
  dict_get k (dict_set k v d) = Some v.
Proof.
  induction d as [|[k' v'] d IH]; cbn.
  - rewrite String.eqb_refl; reflexivity.
  - destruct (String.eqb k k') eqn:E; cbn; rewrite E; [reflexivity|exact IH].
Qed.

Lemma dict_get_set_other (k k' : String.string) (v : V) (d : dict_of V) :
  k <> k' -> dict_get k' (dict_set k v d) = dict_get k' d.
Proof.
  intros Hk; induction d as [|[k0 v0] d IH]; cbn.
  - destruct (String.eqb k' k) eqn:E; [apply String.eqb_eq in E; congruence|reflexivity].
  - destruct (String.eqb k k0) eqn:E; cbn.
    + apply String.eqb_eq in E; subst k0.
      destruct (String.eqb k' k) eqn:E'; [apply String.eqb_eq in E'; congruence|reflexivity].
    + destruct (String.eqb k' k0); [reflexivity|exact IH].
Qed.

Lemma dict_get_keys (k : String.string) (d : dict_of V) :
  dict_get k d <> None <-> In k (map fst d).
Proof.
  induction d as [|[k' v] d IH]; cbn; [tauto|].
  destruct (String.eqb k k') eqn:E.
  - apply String.eqb_eq in E; subst k'. split; [auto|discriminate].
  - apply String.eqb_neq in E. rewrite IH. split; [auto|].
    intros [H|H]; [congruence|exact H].
Qed.

Lemma dict_set_keys (k : String.string) (v : V) (d : dict_of V) :
  map fst (dict_set k v d)
  = if in_dec String.string_dec k (map fst d) then map fst d else map fst d ++ [k].
Proof.
  induction d as [|[k' v'] d IH]; cbn [dict_set map fst app]; [reflexivity|].
  destruct (String.eqb k k') eqn:E.
  - apply String.eqb_eq in E; subst k'. cbn [map fst]. clear IH.
    destruct (in_dec String.string_dec k (k :: map fst d)) as [_|H]; [reflexivity|].
    exfalso; apply H; left; reflexivity.
  - apply String.eqb_neq in E. cbn [map fst]. rewrite IH.
    destruct (in_dec String.string_dec k (map fst d)) as [H|H];
      destruct (in_dec String.string_dec k (k' :: map fst d)) as [H'|H'];
      try reflexivity.
    + exfalso; apply H'; right; exact H.
    + destruct H' as [H'|H']; [congruence|contradiction].
Qed.

(** With keys that are all different, [d[k] = v] leaves every other entry
    as it is. *)
Lemma dict_set_entries (k k' : String.string) (v v' : V) (d : dict_of V) :
  NoDup (map fst d) ->
  In (k', v') (dict_set k v d) ->
  (k' = k /\ v' = v) \/ (k' <> k /\ In (k', v') d).
Proof.
  induction d as [|[k0 v0] d IH]; cbn [dict_set map fst]; intros Hnd.
  - intros [[= <- <-]|[]]. auto.
  - inversion Hnd as [|? ? Hnotin Hnd']; subst.
    destruct (String.eqb k k0) eqn:E.
    + apply String.eqb_eq in E; subst k0.
      intros [[= <- <-]|H]; [auto|]. right. split; [|right; exact H].
      intros ->. apply Hnotin. apply (in_map fst) in H. exact H.
    + apply String.eqb_neq in E.
      intros [[= <- <-]|H]; [right; split; [congruence|left; reflexivity]|].
      destruct (IH Hnd' H) as [?|[? ?]]; [auto|]. right; split; [assumption|].
      right; assumption.
Qed.

End Dictionaries.

Lemma upd_same (h : heap) (r : nat) (d : dict) : upd h r d r = d.
Proof. unfold upd; rewrite Nat.eqb_refl; reflexivity. Qed.

Lemma upd_other (h : heap) (r r' : nat) (d : dict) :
  r <> r' -> upd h r d r' = h r'.
Proof.
  intros H; unfold upd. destruct (Nat.eqb r r') eqn:E; [|reflexivity].
  apply Nat.eqb_eq in E; contradiction.
Qed.

Lemma key_eqb_eq (a b : pyval) : key_eqb a b = true -> a = b.
Proof.
  destruct a, b; cbn; try discriminate; intros H.
  - reflexivity.
  - apply Z.eqb_eq in H; congruence.
  - apply String.eqb_eq in H; congruence.
Qed.

Lemma key_eqb_refl (a : pyval) : hashable a = true -> key_eqb a a = true.
Proof.
  destruct a; cbn; try discriminate; intros _.
  - reflexivity.
  - apply Z.eqb_refl.
  - apply String.eqb_refl.
Qed.

Lemma key_eqb_sym (a b : pyval) : key_eqb a b = key_eqb b a.
Proof.
  destruct a, b; cbn; try reflexivity.
  - apply Z.eqb_sym.
  - apply String.eqb_sym.
Qed.

(** * years_dict *)

Lemma firsts_incl (h : heap) (l : list nat) (r : nat) :
  In r (firsts h l) -> In r l.
Proof.
  revert r; induction l as [|a l IH]; intros r; cbn; [tauto|].
  intros [->|H]; [auto|]. apply filter_In in H. right; apply IH, H.
Qed.

Lemma firsts_snoc (h : heap) (l : list nat) (r : nat) :
  firsts h (l ++ [r]) =
    if existsb (fun r' => key_eqb (year_val h r) (year_val h r')) l
    then firsts h l
    else firsts h l ++ [r].
Proof.
  induction l as [|a l IH]; cbn [app firsts existsb]; [reflexivity|].
  rewrite IH.
  destruct (existsb _ l); [rewrite orb_true_r; reflexivity|].
  rewrite orb_false_r, filter_app. cbn [filter].
  destruct (key_eqb (year_val h r) (year_val h a)); cbn [negb].
  - rewrite app_nil_r; reflexivity.
  - reflexivity.
Qed.

Lemma firsts_years_distinct (h : heap) (l : list nat) (f1 f2 : nat) :
  In f1 (firsts h l) -> In f2 (firsts h l) ->
  key_eqb (year_val h f1) (year_val h f2) = true -> f1 = f2.
Proof.
  revert f1 f2; induction l as [|a l IH]; intros f1 f2; cbn [firsts]; [intros []|].
  intros [<-|H1] [<-|H2] E; try reflexivity.
  - apply filter_In in H2. destruct H2 as [_ H2].
    rewrite key_eqb_sym, E in H2; discriminate.
  - apply filter_In in H1. destruct H1 as [_ H1].
    rewrite E in H1; discriminate.
  - apply filter_In in H1, H2. apply IH; tauto.
Qed.

(** Every transcript has the year of one of the firsts. *)
Lemma firsts_cover (h : heap) (l : list nat) (r : nat) :
  In r l -> hashable (year_val h r) = true ->
  exists f, In f (firsts h l) /\ key_eqb (year_val h r) (year_val h f) = true.
Proof.
  induction l as [|a l IH]; cbn [firsts]; [intros []|].
  intros [->|H] Hh.
  - exists r; split; [left; reflexivity|apply key_eqb_refl, Hh].
  - destruct (key_eqb (year_val h r) (year_val h a)) eqn:E.
    + exists a; split; [left; reflexivity|exact E].
    + destruct (IH H Hh) as (f & Hf & Ef).
      exists f; split; [|exact Ef]. right. apply filter_In; split; [exact Hf|].
      apply key_eqb_eq in Ef. rewrite <- Ef, E; reflexivity.
Qed.

Lemma condensed_get_some (h : heap) (fs : list nat) (y : pyval) (f : nat) :
  condensed_get y (map (fun r => (year_val h r, r)) fs) = Some f ->
  In f fs /\ key_eqb y (year_val h f) = true.
Proof.
  induction fs as [|a fs IH]; cbn; [discriminate|].
  destruct (key_eqb y (year_val h a)) eqn:E.
  - intros [= <-]; auto.
  - intros H; destruct (IH H); auto.
Qed.

Lemma condensed_get_none (h : heap) (fs : list nat) (y : pyval) :
  condensed_get y (map (fun r => (year_val h r, r)) fs) = None ->
  forall f, In f fs -> key_eqb y (year_val h f) = false.
Proof.
  induction fs as [|a fs IH]; cbn; [intros _ f []|].
  destruct (key_eqb y (year_val h a)) eqn:E; [discriminate|].
  intros H f [<-|Hf]; auto.
Qed.

Lemma quarters_in_snoc (h : heap) (y : pyval) (l : list nat) (r : nat) :
  quarters_in h y (l ++ [r]) =
    quarters_in h y l
      ++ (if key_eqb y (year_val h r) then [quarter_val h r] else []).
Proof.
  unfold quarters_in. rewrite flat_map_app. cbn [flat_map].
  rewrite app_nil_r; reflexivity.
Qed.

Lemma quarters_in_member (h : heap) (y : pyval) (l : list nat) (r : nat) :
  In r l -> key_eqb y (year_val h r) = true ->
  In (quarter_val h r) (quarters_in h y l).
Proof.
  intros Hr E. unfold quarters_in. apply in_flat_map.
  exists r; split; [exact Hr|]. rewrite E; left; reflexivity.
Qed.

Lemma quarters_in_none (h : heap) (y : pyval) (l : list nat) :
  (forall r, In r l -> key_eqb y (year_val h r) = false) ->
  quarters_in h y l = [].
Proof.
  induction l as [|a l IH]; intros H; [reflexivity|].
  unfold quarters_in in *; cbn [flat_map].
  rewrite (H a (or_introl eq_refl)), IH; [reflexivity|].
  intros r Hr; apply H; right; exact Hr.
Qed.

Lemma quarters_in_hashable (h : heap) (y : pyval) (l : list nat) :
  (forall r, In r l -> complete (h r) = true) ->
  Forall (fun q => hashable q = true) (quarters_in h y l).
Proof.
  intros Hc. apply Forall_forall. intros q Hq.
  unfold quarters_in in Hq. apply in_flat_map in Hq.
  destruct Hq as (r & Hr & Hq).
  destruct (key_eqb y (year_val h r)); [|destruct Hq].
  destruct Hq as [<-|[]].
  specialize (Hc r Hr). unfold complete in Hc. unfold quarter_val.
  destruct (dict_get "date" (h r)); [|discriminate].
  destruct (dict_get "year" (h r)); [|discriminate].
  destruct (dict_get "quarter" (h r)); [|discriminate].
  apply andb_true_iff in Hc; tauto.
Qed.

(** What a complete transcript holds. *)
Lemma complete_fields (d : dict) :
  complete d = true ->
  exists date y q,
    dict_get "date" d = Some date /\ dict_get "year" d = Some y /\
    dict_get "quarter" d = Some q /\ hashable y = true /\ hashable q = true.
Proof.
  unfold complete.
  destruct (dict_get "date" d) as [date|]; [|discriminate].
  destruct (dict_get "year" d) as [y|]; [|discriminate].
  destruct (dict_get "quarter" d) as [q|]; [|discriminate].
  intros H; apply andb_true_iff in H. exists date, y, q; tauto.
Qed.

Lemma str_date_year : "date" <> "year".
Proof. discriminate. Qed.

Lemma str_date_quarter : "date" <> "quarter".
Proof. discriminate. Qed.

Lemma str_quarter_date : "quarter" <> "date".
Proof. discriminate. Qed.

Lemma grouped_several (qs : list pyval) (q : pyval) :
  qs <> [] -> grouped (qs ++ [q]) = VList (qs ++ [q]).
Proof. destruct qs as [|a [|b qs]]; cbn; congruence. Qed.

(** One more complete transcript, not met before: the body of the loop
    succeeds and keeps the invariant. *)
Lemma years_dict_body_inv (h0 : heap) (seen : list nat) (c : condensed)
      (h : heap) (r : nat) :
  years_inv h0 seen c h ->
  (forall r', In r' seen -> complete (h0 r') = true) ->
  ~ In r seen ->
  complete (h0 r) = true ->
  exists c' h',
    years_dict_body c h r = Ok (c', h') /\ years_inv h0 (seen ++ [r]) c' h'.
Proof.
  intros (Hc & Hq & Hfr & Hd & Hk) Hseen Hr Hcomp.
  destruct (complete_fields _ Hcomp) as (date & y & q & Hdate & Hyear & Hquarter & Hy & Hqh).
  assert (Hyv : year_val h0 r = y) by (unfold year_val; rewrite Hyear; reflexivity).
  assert (Hqv : quarter_val h0 r = q) by (unfold quarter_val; rewrite Hquarter; reflexivity).
  unfold years_dict_body. rewrite (Hfr r Hr), Hdate.
  set (h1 := upd h r (dict_remove "date" (h0 r))).
  assert (H1r : h1 r = dict_remove "date" (h0 r)) by apply upd_same.
  assert (H1o : forall r', r' <> r -> h1 r' = h r')
    by (intros r' Hn; apply upd_other; congruence).
  rewrite H1r, (dict_get_remove_other _ _ _ str_date_year), Hyear, Hy. cbn [negb].
  rewrite (dict_get_remove_other _ _ _ str_date_quarter), Hquarter.
  destruct (condensed_get y c) as [first|] eqn:Ec.
  - subst c. apply condensed_get_some in Ec. destruct Ec as [Hf Ef].
    pose proof (firsts_incl _ _ _ Hf) as Hfs.
    assert (Hne : first <> r) by congruence.
    assert (Hyf : year_val h0 first = y) by (apply key_eqb_eq in Ef; congruence).
    rewrite (H1o first Hne), (Hq first Hf), Hyf.
    set (qs := quarters_in h0 y seen).
    assert (Hin : In (quarter_val h0 first) qs)
      by (apply quarters_in_member; [exact Hfs|exact Ef]).
    assert (Hqs : qs <> []) by (intros E; rewrite E in Hin; destruct Hin).
    pose proof (quarters_in_hashable h0 y seen Hseen) as Hall. fold qs in Hall.
    set (h2 := upd h1 first (dict_set "quarter" (VList (qs ++ [q])) (h first))).
    assert (Hstep :
      match grouped qs with
      | VList quarters =>
          Ok (map (fun r0 => (year_val h0 r0, r0)) (firsts h0 seen),
              upd h1 first (dict_set "quarter" (VList (quarters ++ [q])) (h first)))
      | single =>
          Ok (map (fun r0 => (year_val h0 r0, r0)) (firsts h0 seen),
              upd h1 first (dict_set "quarter" (VList [single; q]) (h first)))
      end = Ok (map (fun r0 => (year_val h0 r0, r0)) (firsts h0 seen), h2)).
    { destruct qs as [|q0 [|q1 qs']]; [congruence| |reflexivity].
      inversion Hall as [|? ? Hq0 _]; subst.
      destruct q0; try discriminate; reflexivity. }
    eexists _, h2. split.
    { destruct (grouped qs) as [| | |quarters]; exact Hstep. }
    assert (H2f : h2 first = dict_set "quarter" (VList (qs ++ [q])) (h first))
      by apply upd_same.
    assert (H2o : forall r', r' <> first -> h2 r' = h1 r')
      by (intros r' Hn; apply upd_other; congruence).
    assert (Hex : existsb (fun r' => key_eqb (year_val h0 r) (year_val h0 r')) seen = true).
    { apply existsb_exists. exists first; split; [exact Hfs|].
      rewrite Hyv; exact Ef. }
    unfold years_inv. rewrite firsts_snoc, Hex.
    split; [reflexivity|]. split; [|split; [|split]].
    + intros f Hff. rewrite quarters_in_snoc, Hyv, Hqv.
      destruct (Nat.eq_dec f first) as [->|Hnf].
      * rewrite H2f, dict_get_set_same, Hyf, (key_eqb_refl _ Hy).
        fold qs. rewrite (grouped_several _ q Hqs). reflexivity.
      * assert (Hfr' : f <> r) by (intros ->; apply Hr, (firsts_incl _ _ _ Hff)).
        rewrite (H2o f Hnf), (H1o f Hfr'), (Hq f Hff).
        destruct (key_eqb (year_val h0 f) y) eqn:E; [|rewrite app_nil_r; reflexivity].
        exfalso; apply Hnf. apply (firsts_years_distinct h0 seen); auto.
        rewrite Hyf; exact E.
    + intros r' Hn. rewrite in_app_iff in Hn. cbn in Hn.
      assert (r' <> r) by (intros ->; tauto).
      assert (r' <> first) by (intros ->; tauto).
      rewrite H2o, H1o by assumption. apply Hfr; tauto.
    + intros r' Hin'. rewrite in_app_iff in Hin'. cbn in Hin'.
      destruct (Nat.eq_dec r' first) as [->|Hnf].
      * rewrite H2f, (dict_get_set_other _ _ _ _ str_quarter_date). apply Hd, Hfs.
      * rewrite (H2o r' Hnf).
        destruct (Nat.eq_dec r' r) as [->|Hnr].
        -- rewrite H1r. apply dict_get_remove_same.
        -- rewrite (H1o r' Hnr). apply Hd.
           destruct Hin' as [H|[H|[]]]; [exact H|congruence].
    + intros r' k Hkd Hkq.
      destruct (Nat.eq_dec r' first) as [->|Hnf].
      * rewrite H2f, dict_get_set_other by congruence. apply Hk; assumption.
      * rewrite (H2o r' Hnf).
        destruct (Nat.eq_dec r' r) as [->|Hnr].
        -- rewrite H1r. apply dict_get_remove_other; congruence.
        -- rewrite (H1o r' Hnr). apply Hk; assumption.
  - subst c. pose proof (condensed_get_none _ _ _ Ec) as Hnone.
    assert (Hnew : forall r', In r' seen -> key_eqb y (year_val h0 r') = false).
    { intros r' Hr'. destruct (key_eqb y (year_val h0 r')) eqn:E; [|reflexivity].
      assert (Hh : hashable (year_val h0 r') = true)
        by (apply key_eqb_eq in E; rewrite <- E; exact Hy).
      destruct (firsts_cover h0 seen r' Hr' Hh) as (f & Hf & Ef).
      apply key_eqb_eq in E, Ef.
      rewrite <- (Hnone f Hf), E, Ef. symmetry; apply key_eqb_refl.
      rewrite <- Ef; exact Hh. }
    assert (Hex : existsb (fun r' => key_eqb (year_val h0 r) (year_val h0 r')) seen = false).
    { destruct (existsb _ seen) eqn:E; [|reflexivity].
      apply existsb_exists in E. destruct E as (r' & Hr' & E).
      rewrite Hyv, (Hnew r' Hr') in E; discriminate. }
    eexists _, h1. split; [reflexivity|].
    unfold years_inv. rewrite firsts_snoc, Hex.
    split; [rewrite map_app; cbn [map]; rewrite Hyv; reflexivity|].
    split; [|split; [|split]].
    + intros f Hff. rewrite quarters_in_snoc, Hyv, Hqv.
      apply in_app_iff in Hff. destruct Hff as [Hff|[<-|[]]].
      * assert (Hfr' : f <> r) by (intros ->; apply Hr, (firsts_incl _ _ _ Hff)).
        rewrite (H1o f Hfr'), (Hq f Hff).
        rewrite key_eqb_sym, (Hnew f (firsts_incl _ _ _ Hff)), app_nil_r.
        reflexivity.
      * rewrite H1r, (dict_get_remove_other _ _ _ str_date_quarter), Hquarter.
        rewrite Hyv, (key_eqb_refl _ Hy), (quarters_in_none h0 y seen Hnew).
        reflexivity.
    + intros r' Hn. rewrite in_app_iff in Hn. cbn in Hn.
      assert (r' <> r) by (intros ->; tauto).
      rewrite H1o by assumption. apply Hfr; tauto.
    + intros r' Hin'. rewrite in_app_iff in Hin'. cbn in Hin'.
      destruct (Nat.eq_dec r' r) as [->|Hnr].
      * rewrite H1r. apply dict_get_remove_same.
      * rewrite (H1o r' Hnr). apply Hd.
        destruct Hin' as [H|[H|[]]]; [exact H|congruence].
    + intros r' k Hkd Hkq.
      destruct (Nat.eq_dec r' r) as [->|Hnr].
      * rewrite H1r, dict_get_remove_other by congruence. reflexivity.
      * rewrite (H1o r' Hnr). apply Hk; assumption.
Qed.

Lemma years_inv_start (h0 : heap) : years_inv h0 [] [] h0.
Proof. unfold years_inv; cbn; repeat split; auto; intros r []. Qed.

Lemma years_dict_loop_inv (h0 : heap) (todo seen : list nat) (c : condensed)
      (h : heap) :
  years_inv h0 seen c h ->
  NoDup (seen ++ todo) ->
  (forall r, In r (seen ++ todo) -> complete (h0 r) = true) ->
  exists c' h',
    years_dict_loop todo c h = Ok (c', h') /\ years_inv h0 (seen ++ todo) c' h'.
Proof.
  revert seen c h; induction todo as [|r todo IH]; intros seen c h Hinv Hnd Hall.
  - exists c, h. rewrite app_nil_r. auto.
  - assert (Hr : ~ In r seen).
    { apply NoDup_remove_2 in Hnd. intros H; apply Hnd, in_or_app; auto. }
    destruct (years_dict_body_inv h0 seen c h r Hinv) as (c1 & h1 & Hstep & Hinv1).
    + intros r' Hr'; apply Hall, in_or_app; auto.
    + exact Hr.
    + apply Hall, in_or_app; right; left; reflexivity.
    + cbn [years_dict_loop]. rewrite Hstep.
      replace (seen ++ r :: todo) with ((seen ++ [r]) ++ todo) in *
        by (rewrite <- app_assoc; reflexivity).
      apply IH; assumption.
Qed.

(** The loop over a list is the loop over its first part, then over the
    rest. *)
Lemma years_dict_loop_app (l1 l2 : list nat) (c : condensed) (h : heap) :
  years_dict_loop (l1 ++ l2) c h =
    match years_dict_loop l1 c h with
    | Ok (c', h') => years_dict_loop l2 c' h'
    | Exc e => Exc e
    end.
Proof.
  revert c h; induction l1 as [|r l1 IH]; intros c h; cbn; [reflexivity|].
  destruct (years_dict_body c h r) as [[c1 h1]|e]; [apply IH|reflexivity].
Qed.

(** Everything the invariant says once the whole content is done. *)
Lemma years_dict_complete (content : list nat) (h : heap) :
  NoDup content ->
  (forall r, In r content -> complete (h r) = true) ->
  exists h',
    years_dict content h = Ok (firsts h content, h') /\
    years_inv h content (map (fun r => (year_val h r, r)) (firsts h content)) h'.
Proof.
  intros Hnd Hall.
  destruct (years_dict_loop_inv h content [] [] h (years_inv_start h) Hnd Hall)
    as (c' & h' & Hloop & Hinv).
  cbn [app] in Hinv. exists h'. unfold years_dict. rewrite Hloop.
  pose proof Hinv as (Hc & _). subst c'.
  rewrite map_map, map_id. auto.
Qed.

(** X1. On transcripts as the site gives them, all of them distinct objects,
    [years_dict] succeeds and returns one dictionary per year: the first
    transcript of each year, the very object of the input, in the order of
    the input. *)
Theorem years_dict_one_per_year (content : list nat) (h : heap) :
  NoDup content ->
  (forall r, In r content -> complete (h r) = true) ->
  exists h',
    years_dict content h = Ok (firsts h content, h') /\
    (forall f1 f2, In f1 (firsts h content) -> In f2 (firsts h content) ->
                   dict_get "year" (h' f1) = dict_get "year" (h' f2) -> f1 = f2) /\
    (forall r, In r content ->
               exists f, In f (firsts h content) /\
                         dict_get "year" (h' f) = dict_get "year" (h r)).
Proof.
  intros Hnd Hall.
  destruct (years_dict_complete content h Hnd Hall) as (h' & Hres & _ & _ & _ & _ & Hk).
  assert (Hyear : forall r, dict_get "year" (h' r) = dict_get "year" (h r))
    by (intros r; apply Hk; discriminate).
  assert (Hval : forall r, In r content ->
                           dict_get "year" (h r) = Some (year_val h r)
                           /\ hashable (year_val h r) = true).
  { intros r Hr. destruct (complete_fields _ (Hall r Hr)) as (? & y & ? & _ & Hy & _ & Hh & _).
    unfold year_val; rewrite Hy; auto. }
  exists h'. split; [exact Hres|]. split.
  - intros f1 f2 H1 H2 E. rewrite !Hyear in E.
    destruct (Hval f1 (firsts_incl _ _ _ H1)) as [E1 Hh1].
    destruct (Hval f2 (firsts_incl _ _ _ H2)) as [E2 _].
    apply (firsts_years_distinct h content); auto.
    rewrite E1, E2 in E. injection E as E. rewrite <- E.
    apply key_eqb_refl, Hh1.
  - intros r Hr. destruct (Hval r Hr) as [E Hh].
    destruct (firsts_cover h content r Hr Hh) as (f & Hf & Ef).
    exists f; split; [exact Hf|]. rewrite Hyear.
    destruct (Hval f (firsts_incl _ _ _ Hf)) as [E' _].
    apply key_eqb_eq in Ef. congruence.
Qed.

(** X2. In the dictionary returned for a year, ['quarter'] holds the quarters of
    all the transcripts of that year in the order of the input: as a list
    when there are several, as the single value it was when there is one. *)
Theorem years_dict_quarters (content : list nat) (h : heap) (f : nat) :
  NoDup content ->
  (forall r, In r content -> complete (h r) = true) ->
  In f (firsts h content) ->
  exists h',
    years_dict content h = Ok (firsts h content, h') /\
    dict_get "quarter" (h' f)
      = Some (grouped (quarters_in h (year_val h f) content)).
Proof.
  intros Hnd Hall Hf.
  destruct (years_dict_complete content h Hnd Hall) as (h' & Hres & _ & Hq & _).
  exists h'; auto.
Qed.

(** X3. [years_dict] changes its argument: afterwards no transcript of the
    content has its ['date'], every key other than ['date'] and ['quarter']
    holds what it held, and dictionaries outside the content are as they
    were. *)
Theorem years_dict_pops_date (content : list nat) (h : heap) :
  NoDup content ->
  (forall r, In r content -> complete (h r) = true) ->
  exists refs h',
    years_dict content h = Ok (refs, h') /\
    (forall r, In r content -> dict_get "date" (h' r) = None) /\
    (forall r k, k <> "date" -> k <> "quarter" ->
                 dict_get k (h' r) = dict_get k (h r)) /\
    (forall r, ~ In r content -> h' r = h r).
Proof.
  intros Hnd Hall.
  destruct (years_dict_complete content h Hnd Hall) as (h' & Hres & _ & _ & Hfr & Hd & Hk).
  exists (firsts h content), h'; auto.
Qed.

(** The state in which the loop reaches the transcript that follows a
    well-formed beginning [pre] of the content. *)
Lemma years_dict_reaches (pre post : list nat) (r : nat) (h : heap) :
  NoDup pre ->
  (forall r', In r' pre -> complete (h r') = true) ->
  exists c' h',
    years_inv h pre c' h' /\
    years_dict (pre ++ r :: post) h =
      match years_dict_body c' h' r with
      | Ok (c1, h1) =>
          match years_dict_loop post c1 h1 with
          | Ok (c2, h2) => Ok (map snd c2, h2)
          | Exc e => Exc e
          end
      | Exc e => Exc e
      end.
Proof.
  intros Hnd Hall.
  destruct (years_dict_loop_inv h pre [] [] h (years_inv_start h) Hnd Hall)
    as (c' & h' & Hloop & Hinv).
  exists c', h'. split; [exact Hinv|].
  unfold years_dict. rewrite years_dict_loop_app, Hloop. cbn [years_dict_loop].
  destruct (years_dict_body c' h' r) as [[c1 h1]|e]; reflexivity.
Qed.

(** X4. The first transcript that is not as the site gives them decides the
    error: without ['date'] it is [KeyError('date')]; with a date and
    without ['year'], [KeyError('year')]; with a list for year,
    [TypeError]; and without ['quarter'], [KeyError('quarter')] when its
    year was met before. *)
Theorem years_dict_missing_key (pre post : list nat) (r : nat) (h : heap) :
  NoDup pre ->
  (forall r', In r' pre -> complete (h r') = true) ->
  ~ In r pre ->
  (dict_get "date" (h r) = None ->
   years_dict (pre ++ r :: post) h = Exc (KeyError "date")) /\
  (dict_get "date" (h r) <> None -> dict_get "year" (h r) = None ->
   years_dict (pre ++ r :: post) h = Exc (KeyError "year")) /\
  (forall l, dict_get "date" (h r) <> None -> dict_get "year" (h r) = Some (VList l) ->
   years_dict (pre ++ r :: post) h = Exc TypeError) /\
  (forall y r', dict_get "date" (h r) <> None -> dict_get "year" (h r) = Some y ->
   dict_get "quarter" (h r) = None ->
   In r' pre -> dict_get "year" (h r') = Some y ->
   years_dict (pre ++ r :: post) h = Exc (KeyError "quarter")).
Proof.
  intros Hnd Hall Hr.
  destruct (years_dict_reaches pre post r h Hnd Hall) as (c' & h' & Hinv & ->).
  destruct Hinv as (Hc & Hq & Hfr & _ & _).
  unfold years_dict_body. rewrite (Hfr r Hr), upd_same.
  rewrite (dict_get_remove_other _ _ _ str_date_year).
  rewrite (dict_get_remove_other _ _ _ str_date_quarter).
  split; [|split; [|split]].
  - intros ->; reflexivity.
  - intros Hd ->. destruct (dict_get "date" (h r)); [reflexivity|congruence].
  - intros l Hd ->. destruct (dict_get "date" (h r)); [reflexivity|congruence].
  - intros y r' Hd Hy Hqn Hr' Hy'. rewrite Hy, Hqn.
    destruct (dict_get "date" (h r)); [|congruence].
    destruct (complete_fields _ (Hall r' Hr')) as (? & y' & ? & _ & Ey & _ & Hh & _).
    assert (y' = y) by congruence; subst y'. rewrite Hh. cbn [negb].
    assert (Hyv : year_val h r' = y) by (unfold year_val; rewrite Hy'; reflexivity).
    destruct (firsts_cover h pre r') as (f & Hf & Ef); [exact Hr'|congruence|].
    rewrite Hyv in Ef.
    destruct (condensed_get y c') as [first|] eqn:Ec.
    + subst c'. apply condensed_get_some in Ec. destruct Ec as [Hfi _].
      assert (first <> r) by (intros ->; apply Hr, (firsts_incl _ _ _ Hfi)).
      rewrite upd_other by congruence. rewrite (Hq first Hfi).
      destruct (grouped _); reflexivity.
    + subst c'. rewrite (condensed_get_none _ _ _ Ec f Hf) in Ef. discriminate.
Qed.

(** X5. The same dictionary object twice in the content: its ['date'] is gone
    when it comes again, and the call raises [KeyError('date')]. *)
Theorem years_dict_same_object_twice (pre post : list nat) (r : nat) (h : heap) :
  NoDup pre ->
  (forall r', In r' pre -> complete (h r') = true) ->
  In r pre ->
  years_dict (pre ++ r :: post) h = Exc (KeyError "date").
Proof.
  intros Hnd Hall Hr.
  destruct (years_dict_reaches pre post r h Hnd Hall) as (c' & h' & Hinv & ->).
  destruct Hinv as (_ & _ & _ & Hd & _).
  unfold years_dict_body. rewrite (Hd r Hr). reflexivity.
Qed.

(** * merge_list_dict *)

Lemma merge_body_other (key k : String.string) (final_dict : dict_of (list pyval))
      (d : dict) :
  key <> k -> dict_get k (merge_body key final_dict d) = dict_get k final_dict.
Proof.
  intros Hk. unfold merge_body.
  destruct (dict_get key final_dict) as [col|] eqn:E.
  - rewrite E. apply dict_get_set_other, Hk.
  - rewrite dict_get_set_same.
    rewrite !dict_get_set_other by exact Hk. reflexivity.
Qed.

Lemma merge_body_same (key : String.string) (final_dict : dict_of (list pyval))
      (d : dict) :
  dict_get key (merge_body key final_dict d)
  = Some (match dict_get key final_dict with Some col => col | None => [] end
          ++ [dict_get_none key d]).
Proof.
  unfold merge_body.
  destruct (dict_get key final_dict) as [col|] eqn:E.
  - rewrite E. apply dict_get_set_same.
  - rewrite dict_get_set_same. apply dict_get_set_same.
Qed.

Lemma merge_inner_other (key k : String.string) (ds : list dict)
      (final_dict : dict_of (list pyval)) :
  key <> k ->
  dict_get k (fold_left (merge_body key) ds final_dict) = dict_get k final_dict.
Proof.
  intros Hk; revert final_dict; induction ds as [|d ds IH]; intros final_dict; cbn.
  - reflexivity.
  - rewrite IH. apply merge_body_other, Hk.
Qed.

Lemma merge_inner_same (key : String.string) (ds : list dict)
      (final_dict : dict_of (list pyval)) :
  ds <> [] ->
  dict_get key (fold_left (merge_body key) ds final_dict)
  = Some (match dict_get key final_dict with Some col => col | None => [] end
          ++ map (dict_get_none key) ds).
Proof.
  revert final_dict; induction ds as [|d ds IH]; intros final_dict Hne; [congruence|].
  cbn [fold_left map]. destruct ds as [|d' ds].
  - cbn [fold_left map]. apply merge_body_same.
  - rewrite IH by discriminate. rewrite merge_body_same.
    rewrite <- app_assoc. reflexivity.
Qed.

Lemma merge_outer (keys : list String.string) (ds : list dict)
      (final_dict : dict_of (list pyval)) (k : String.string) :
  NoDup keys -> ds <> [] ->
  dict_get k
    (fold_left (fun f key => fold_left (merge_body key) ds f) keys final_dict)
  = if in_dec String.string_dec k keys
    then Some (match dict_get k final_dict with Some col => col | None => [] end
               ++ map (dict_get_none k) ds)
    else dict_get k final_dict.
Proof.
  intros Hnd Hne; revert final_dict.
  induction keys as [|key keys IH]; intros final_dict; cbn [fold_left].
  - reflexivity.
  - inversion Hnd as [|? ? Hnotin Hnd']; subst.
    rewrite (IH Hnd').
    destruct (in_dec String.string_dec k (key :: keys)) as [Hin|Hout];
      destruct (in_dec String.string_dec k keys) as [Hin'|Hout'].
    + assert (key <> k) by (intros ->; contradiction).
      rewrite merge_inner_other by assumption. reflexivity.
    + destruct Hin as [->|Hin]; [|contradiction].
      apply merge_inner_same, Hne.
    + exfalso; apply Hout; right; exact Hin'.
    + assert (key <> k) by (intros ->; apply Hout; left; reflexivity).
      apply merge_inner_other; assumption.
Qed.

(** X6. Whatever the order in which the set of keys is iterated, the merged
    dictionary holds, under every key that some dictionary of the list has,
    the list of what each dictionary gives for that key, in the order of
    the list, with [None] where a dictionary does not have the key; and it
    holds no other key. *)
Theorem merge_list_dict_columns (keys : list String.string) (list_dicts : list dict)
        (k : String.string) :
  iterates_keys keys list_dicts ->
  ((exists d, In d list_dicts /\ dict_get k d <> None) ->
   dict_get k (merge_list_dict keys list_dicts)
   = Some (map (dict_get_none k) list_dicts)) /\
  ((forall d, In d list_dicts -> dict_get k d = None) ->
   dict_get k (merge_list_dict keys list_dicts) = None).
Proof.
  intros [Hnd Hkeys]. unfold merge_list_dict. split.
  - intros Hex. assert (Hne : list_dicts <> []).
    { destruct Hex as (d & Hd & _). intros E; rewrite E in Hd; destruct Hd. }
    rewrite (merge_outer keys list_dicts [] k Hnd Hne).
    destruct (in_dec String.string_dec k keys) as [_|Hout]; [reflexivity|].
    exfalso; apply Hout, Hkeys, Hex.
  - intros Hnone. destruct list_dicts as [|d ds].
    + clear. induction keys; cbn; auto.
    + rewrite (merge_outer keys (d :: ds) [] k Hnd) by discriminate.
      destruct (in_dec String.string_dec k keys) as [Hin|_]; [|reflexivity].
      apply Hkeys in Hin. destruct Hin as (d' & Hd' & Hk).
      exfalso; apply Hk, Hnone, Hd'.
Qed.

(** X7. Every list of the merged dictionary is as long as the list of
    dictionaries merged, whatever keys are iterated. *)
Theorem merge_list_dict_rectangular (keys : list String.string)
        (list_dicts : list dict) (k : String.string) (column : list pyval) :
  NoDup keys ->
  dict_get k (merge_list_dict keys list_dicts) = Some column ->
  length column = length list_dicts.
Proof.
  intros Hnd. unfold merge_list_dict. destruct list_dicts as [|d ds].
  - assert (H : fold_left (fun f key => fold_left (merge_body key) [] f) keys []
                = ([] : dict_of (list pyval))) by (clear; induction keys; cbn; auto).
    rewrite H. discriminate.
  - rewrite (merge_outer keys (d :: ds) [] k Hnd) by discriminate.
    destruct (in_dec String.string_dec k keys); [|discriminate].
    intros [= <-]. cbn [dict_get app]. apply (length_map (dict_get_none k) (d :: ds)).
Qed.

Lemma add_keys_spec (d : dict) (keys : list String.string) :
  NoDup keys ->
  NoDup (add_keys d keys) /\
  forall k, In k (add_keys d keys) <-> In k keys \/ dict_get k d <> None.
Proof.
  revert keys; induction d as [|[k0 v] d IH]; intros keys Hnd; cbn [add_keys].
  - split; [exact Hnd|]. intros k; cbn. split; [auto|intros [H|H]; [exact H|congruence]].
  - destruct (existsb (String.eqb k0) keys) eqn:E.
    + destruct (IH keys Hnd) as [Hnd' Hin]. split; [exact Hnd'|].
      intros k. rewrite Hin. cbn [dict_get].
      apply existsb_exists in E. destruct E as (k1 & Hk1 & E).
      apply String.eqb_eq in E; subst k1.
      destruct (String.eqb k k0) eqn:E'.
      * apply String.eqb_eq in E'; subst k0. split; [auto|]. intros _; auto.
      * tauto.
    + assert (Hnotin : ~ In k0 keys).
      { intros H. assert (existsb (String.eqb k0) keys = true); [|congruence].
        apply existsb_exists. exists k0; split; [exact H|apply String.eqb_refl]. }
      assert (Hnd1 : NoDup (keys ++ [k0])).
      { apply NoDup_app; [exact Hnd|repeat constructor; intros []|].
        intros x Hx [<-|[]]. contradiction. }
      destruct (IH _ Hnd1) as [Hnd' Hin]. split; [exact Hnd'|].
      intros k. rewrite Hin, in_app_iff. cbn [In dict_get].
      destruct (String.eqb k k0) eqn:E'.
      * apply String.eqb_eq in E'; subst k0. split; [right; discriminate|auto].
      * apply String.eqb_neq in E'. split.
        -- intros [[H|[H|[]]]|H]; auto; congruence.
        -- intros [H|H]; auto.
Qed.

(** The keys as they are first met are one order in which the set can be
    iterated. *)
Lemma union_keys_iterates (list_dicts : list dict) :
  iterates_keys (union_keys list_dicts) list_dicts.
Proof.
  unfold union_keys, iterates_keys.
  assert (G : forall ds keys, NoDup keys ->
            NoDup (fold_left (fun keys d => add_keys d keys) ds keys) /\
            forall k, In k (fold_left (fun keys d => add_keys d keys) ds keys)
                      <-> In k keys \/ exists d, In d ds /\ dict_get k d <> None).
  { induction ds as [|d ds IH]; intros keys Hnd; cbn [fold_left].
    - split; [exact Hnd|]. intros k. split; [auto|].
      intros [H|(d & [] & _)]; exact H.
    - destruct (add_keys_spec d keys Hnd) as [Hnd1 Hin1].
      destruct (IH _ Hnd1) as [Hnd2 Hin2]. split; [exact Hnd2|].
      intros k. rewrite Hin2, Hin1. cbn [In]. split.
      + intros [[H|H]|(d' & Hd' & H)]; eauto 6.
      + intros [H|(d' & [<-|Hd'] & H)]; eauto 6. }
  destruct (G list_dicts [] (NoDup_nil _)) as [Hnd Hin].
  split; [exact Hnd|]. intros k. rewrite Hin. cbn [In]. tauto.
Qed.

(** * More on the threads: any clock *)

Section ThreadsAnyClock.

Context {Args Data Err Store : Type}.

Local Abbreviation State := (@State Args Data Err Store).
Local Abbreviation System := (@System Args Data Err Store).
Local Abbreviation World := (@World Args Data Err Store).

(** What a statement of a thread does to the lock: taken on entry, given
    back on the last statement, untouched in between. *)
Lemma thread_step_lock (t : nat) (p p' : pc) (s s' : State) :
  thread_step t p s = Some (p', s') ->
  match p with
  | AtAcquire =>
      RLock_free (lock (self s)) t = true /\ p' = AtElapsed /\
      lock (self s') = RLock_acquire t (lock (self s))
  | AtLimitTest _ =>
      in_block p' = false /\ lock (self s') = RLock_release (lock (self s))
  | Finished _ => False
  | _ => in_block p' = true /\ lock (self s') = lock (self s)
  end.
Proof.
  destruct p as [| |pr|pr|pr|pr|pr|x]; cbn [thread_step].
  - destruct (RLock_free (lock (self s)) t); [|discriminate].
    intros [= <- <-]; cbn; auto.
  - unfold call_clock. destruct (clock (self s) (world s)) as [now w1].
    intros [= <- <-]; cbn; auto.
  - intros [= <- <-]. destruct (pr <=? 0); cbn; auto.
  - intros [= <- <-]; cbn; auto.
  - unfold call_clock; cbn [self world set_num_calls].
    destruct (clock (self s) (world s)) as [now w1].
    intros [= <- <-]; cbn; auto.
  - intros [= <- <-]; cbn; auto.
  - intros [= <- <-]; cbn; auto.
  - discriminate.
Qed.

(** Whatever the clock, a move of a thread keeps the lock held exactly
    when one thread is in the block. *)
Lemma sys_step_lock_inv (t : nat) (sys : System) :
  lock_inv (threads sys) (lock (self (shared sys))) ->
  lock_inv (threads (sys_step t sys)) (lock (self (shared (sys_step t sys)))).
Proof.
  intros Hinv. unfold sys_step.
  destruct (nth_error (threads sys) t) as [p|] eqn:Hp; [|exact Hinv].
  destruct (thread_step t p (shared sys)) as [[p' s']|] eqn:Hs; [|exact Hinv].
  cbn [threads shared]. pose proof (thread_step_lock _ _ _ _ _ Hs) as H.
  destruct p as [| |pr|pr|pr|pr|pr|x];
    try (destruct H as [Hin ->]; eapply lock_inv_move; eauto; reflexivity).
  - destruct H as (Hfree & -> & ->). apply lock_inv_enter; assumption.
  - destruct H as [Hin ->]. eapply lock_inv_leave; eauto.
  - destruct H.
Qed.

Lemma exec_lock_inv (sched : list nat) (sys : System) :
  lock_inv (threads sys) (lock (self (shared sys))) ->
  lock_inv (threads (exec sched sys)) (lock (self (shared (exec sched sys)))).
Proof.
  revert sys; induction sched as [|t sched IH]; intros sys H; cbn [exec].
  - exact H.
  - apply IH, sys_step_lock_inv, H.
Qed.

Lemma race_lock_inv (n : nat) (c d : Z) (rol : bool) (w : World) :
  lock_inv (threads (race n c d rol w)) (lock (self (shared (race n c d rol w)))).
Proof.
  left. unfold race; cbn [threads shared]. split; [|reflexivity].
  apply count_repeat; reflexivity.
Qed.

(** X8. Whatever the clock does, whatever the limits and however the threads
    are interleaved, at most one thread is inside the locked block, and the
    lock is free whenever none is. *)
Theorem race_mutual_exclusion (n : nat) (c d : Z) (rol : bool) (w : World)
        (sched : list nat) :
  let sys := exec sched (race n c d rol w) in
  (count in_block (threads sys) <= 1)%nat /\
  (count in_block (threads sys) = 0%nat ->
   lock (self (shared sys)) = mkRLock None 0).
Proof.
  intros sys.
  pose proof (exec_lock_inv sched _ (race_lock_inv n c d rol w)) as H. fold sys in H.
  split; [exact (lock_inv_count _ _ H)|].
  intros H0. destruct H as [[_ H]|[H _]]; [exact H|lia].
Qed.

Lemma work_left_set_pc (thr : list pc) (t : nat) (p q : pc) :
  nth_error thr t = Some p ->
  (work_left (set_pc t q thr) + steps_left p = work_left thr + steps_left q)%nat.
Proof.
  revert t; induction thr as [|x thr IH]; intros [|t]; cbn [nth_error set_pc];
    try discriminate.
  - intros [= ->]. unfold work_left; cbn [fold_right]. lia.
  - intros H. specialize (IH t H). unfold work_left in *; cbn [fold_right]. lia.
Qed.

Lemma length_set_pc (thr : list pc) (t : nat) (q : pc) :
  length (set_pc t q thr) = length thr.
Proof.
  revert t; induction thr as [|x thr IH]; intros [|t]; cbn; auto.
Qed.

Lemma thread_step_less (t : nat) (p p' : pc) (s s' : State) :
  thread_step t p s = Some (p', s') -> (steps_left p' < steps_left p)%nat.
Proof.
  destruct p as [| |pr|pr|pr|pr|pr|x]; cbn [thread_step].
  - destruct (RLock_free _ _); [|discriminate]. intros [= <- <-]; cbn; lia.
  - unfold call_clock. destruct (clock _ _). intros [= <- <-]; cbn; lia.
  - intros [= <- <-]. destruct (pr <=? 0); cbn; lia.
  - intros [= <- <-]; cbn; lia.
  - unfold call_clock; cbn [self world]. destruct (clock _ _).
    intros [= <- <-]; cbn; lia.
  - intros [= <- <-]; cbn; lia.
  - intros [= <- <-]; cbn; lia.
  - discriminate.
Qed.

Lemma work_left_unfinished (thr : list pc) :
  (0 < work_left thr)%nat ->
  exists t p, nth_error thr t = Some p /\ is_finished p = false.
Proof.
  induction thr as [|x thr IH]; unfold work_left; cbn [fold_right]; [lia|].
  fold (work_left thr). intros H. destruct (is_finished x) eqn:E.
  - destruct x; try discriminate. cbn [steps_left Nat.add] in H.
    destruct (IH H) as (t & p & Hp & Hf). exists (S t), p; auto.
  - exists 0%nat, x; auto.
Qed.

Lemma work_left_done (thr : list pc) :
  work_left thr = 0%nat -> count is_finished thr = length thr.
Proof.
  induction thr as [|x thr IH]; [reflexivity|].
  unfold work_left; cbn [fold_right]. fold (work_left thr).
  intros H. rewrite count_cons.
  cbn [length]. rewrite IH by lia.
  destruct x; cbn [steps_left is_finished Nat.b2n] in *; lia.
Qed.

(** As long as a thread has not left the block, some thread can move. *)
Lemma race_progress (sys : System) :
  lock_inv (threads sys) (lock (self (shared sys))) ->
  (0 < work_left (threads sys))%nat ->
  exists t,
    (work_left (threads (sys_step t sys)) < work_left (threads sys))%nat.
Proof.
  intros Hinv Hwork.
  assert (Hmove : exists t p p' s',
             nth_error (threads sys) t = Some p /\
             thread_step t p (shared sys) = Some (p', s')).
  { destruct Hinv as [[Hnone Hlock]|[_ (t & p & Hlock & Hp & Hin)]].
    - destruct (work_left_unfinished _ Hwork) as (t & p & Hp & Hf).
      exists t, p. destruct p as [| |pr|pr|pr|pr|pr|x]; try discriminate;
        try (pose proof (count_member in_block _ _ _ Hp eq_refl); lia).
      cbn [thread_step]. rewrite Hlock. cbn. eauto.
    - exists t, p. destruct p as [| |pr|pr|pr|pr|pr|x]; try discriminate;
        cbn [thread_step]; unfold call_clock;
        try destruct (clock _ _); eauto. }
  destruct Hmove as (t & p & p' & s' & Hp & Hs).
  exists t. unfold sys_step. rewrite Hp, Hs. cbn [threads].
  pose proof (work_left_set_pc _ _ _ p' Hp).
  pose proof (thread_step_less _ _ _ _ _ Hs). lia.
Qed.

Lemma race_can_finish (m : nat) (sys : System) :
  lock_inv (threads sys) (lock (self (shared sys))) ->
  (work_left (threads sys) <= m)%nat ->
  exists rest, work_left (threads (exec rest sys)) = 0%nat.
Proof.
  revert sys; induction m as [|m IH]; intros sys Hinv Hm.
  - exists []. cbn [exec]. lia.
  - destruct (Nat.eq_dec (work_left (threads sys)) 0) as [H0|Hpos].
    + exists []. exact H0.
    + destruct (race_progress sys Hinv) as (t & Hlt); [lia|].
      destruct (IH (sys_step t sys)) as (rest & Hrest).
      * apply sys_step_lock_inv, Hinv.
      * lia.
      * exists (t :: rest). exact Hrest.
Qed.

Lemma exec_app (s1 s2 : list nat) (sys : System) :
  exec (s1 ++ s2) sys = exec s2 (exec s1 sys).
Proof. revert sys; induction s1 as [|t s1 IH]; intros sys; cbn; auto. Qed.

Lemma exec_length (sched : list nat) (sys : System) :
  length (threads (exec sched sys)) = length (threads sys).
Proof.
  revert sys; induction sched as [|t sched IH]; intros sys; cbn [exec]; [reflexivity|].
  rewrite IH. unfold sys_step.
  destruct (nth_error (threads sys) t) as [p|]; [|reflexivity].
  destruct (thread_step t p (shared sys)) as [[p' s']|]; [|reflexivity].
  apply length_set_pc.
Qed.

(** X9. No schedule can leave the threads stuck: whatever the clock, the limits
    and the interleaving so far, the schedule can be continued so that
    every thread leaves the block.  In particular the lock is given back on
    the paths that raise and return as on the one that goes on to the
    call. *)
Theorem race_can_always_finish (n : nat) (c d : Z) (rol : bool) (w : World)
        (sched : list nat) :
  exists rest,
    count is_finished (threads (exec (sched ++ rest) (race n c d rol w))) = n.
Proof.
  pose proof (exec_lock_inv sched _ (race_lock_inv n c d rol w)) as Hinv.
  destruct (race_can_finish _ _ Hinv (Nat.le_refl _)) as (rest & Hrest).
  exists rest. rewrite exec_app. rewrite (work_left_done _ Hrest).
  rewrite !exec_length. unfold race; cbn [threads]. apply repeat_length.
Qed.

End ThreadsAnyClock.

(** * The start of the window is never in the future *)

Section WindowProperties.

Context {Args Data Err Store : Type}.

Local Abbreviation State := (@State Args Data Err Store).
Local Abbreviation World := (@World Args Data Err Store).
Local Abbreviation operation := (@operation Args Data Err Store).

Lemma clock_inv_init (c d : Z) (rol : bool) (w : World) :
  nondecreasing (mono w) -> clock_inv (RateLimit_init c d rol w).
Proof.
  intros Hm. unfold clock_inv, monotonic_clock; cbn.
  repeat split; [exact Hm|]. exists (reads w); split; [lia|reflexivity].
Qed.

Lemma clock_inv_block (s : State) :
  clock_inv s -> clock_inv (snd (locked_block s)).
Proof.
  intros (Hc & Hm & k & Hk & Hl).
  unfold clock_inv, monotonic_clock in *.
  rewrite locked_block_open; cbn zeta. rewrite Hc.
  destruct (_ <=? 0); cbn.
  - repeat split; auto. exists (S (reads (world s))); split; [lia|reflexivity].
  - repeat split; auto. exists k; split; [lia|exact Hl].
Qed.

Lemma clock_inv_wrapper (op : operation) (a : Args) (s : State) :
  clock_inv s -> clock_inv (snd (RateLimit_wrapper (call op) a s)).
Proof.
  intros H. apply clock_inv_block in H.
  unfold RateLimit_wrapper.
  destruct (locked_block s) as [[| |e] s1]; cbn [snd] in *; try exact H.
  destruct H as (Hc & Hm & k & Hk & Hl).
  destruct (call_world op a s1) as (_ & Hmono & Hreads).
  unfold clock_inv, monotonic_clock in *.
  rewrite call_self, Hmono, Hreads. eauto.
Qed.

Lemma clock_inv_run (op : operation) (l : list Args) (s : State) :
  clock_inv s -> clock_inv (run (RateLimit_wrapper (call op)) l s).
Proof.
  revert s; induction l as [|a l IH]; intros s H; cbn [run]; [exact H|].
  apply IH, clock_inv_wrapper, H.
Qed.

(** X10. With a clock that never goes back, after any run of calls the window
    started at a reading already taken: the time elapsed that the next call
    measures is not negative, and a call that is refused is never told to
    wait longer than the interval; when the limiter grants at least one
    call a window, it is told to wait a positive time. *)
Theorem wait_at_most_interval (op : operation) (c d : Z) (rol : bool) (w : World)
        (prev : list Args) (e : RateLimitException) :
  nondecreasing (mono w) ->
  let sk := run (RateLimit_wrapper (call op)) prev (RateLimit_init c d rol w) in
  0 <= elapsed_now sk /\
  (fst (locked_block sk) = Raised e ->
   time_remaining e <= d /\ (1 <= c -> 0 < time_remaining e)).
Proof.
  intros Hm sk.
  pose proof (clock_inv_run op prev _ (clock_inv_init c d rol w Hm)) as Hinv.
  fold sk in Hinv. destruct Hinv as (Hc & Hmono & k & Hk & Hl).
  destruct (run_config op prev (RateLimit_init c d rol w)) as (Hcalls & Hi & _).
  fold sk in Hi, Hcalls. cbn in Hi, Hcalls.
  assert (H0 : 0 <= elapsed_now sk).
  { unfold elapsed_now. unfold monotonic_clock in Hc. rewrite Hc, Hl. cbn.
    specialize (Hmono k (reads (world sk))). lia. }
  split; [exact H0|]. intros Hx. split.
  - destruct (Z_lt_le_dec (elapsed_now sk) (interval (self sk))) as [Hw|Hw].
    + destruct (locked_block_in_window sk Hw) as (_ & _ & H). rewrite H in Hx.
      destruct (_ >? _); [|discriminate].
      destruct (raise_on_limit _); [|discriminate].
      injection Hx as <-. cbn. lia.
    + destruct (locked_block_elapsed sk Hw) as (_ & _ & H). rewrite H in Hx.
      destruct (_ >? _); [|discriminate].
      destruct (raise_on_limit _); [|discriminate].
      injection Hx as <-. cbn. lia.
  - intros H1. apply (limiter_rejection_positive sk e); [rewrite Hcalls; exact H1|exact Hx].
Qed.

End WindowProperties.

(** * The retry wrapper over the limiter, seen from its callers *)

Section GateCallers.

Context {Args Data Err Store : Type}.

Local Abbreviation State := (@State Args Data Err Store).
Local Abbreviation operation := (@operation Args Data Err Store).
Local Abbreviation outcome := (@outcome Data Err).

Lemma called_app (t1 t2 : list (@event Args Data Err)) :
  called (t1 ++ t2) = called t1 ++ called t2.
Proof.
  induction t1 as [|[a o|e|d] t1 IH]; cbn; [reflexivity| |exact IH|exact IH].
  rewrite IH; reflexivity.
Qed.

Lemma called_rejections (rejs : list RateLimitException) :
  called (flat_map (@rejection_events Args Data Err) rejs) = [].
Proof. induction rejs as [|e rejs IH]; cbn; auto. Qed.

(** The retry wrapper leaves the configuration of the limiter alone. *)
Lemma gate_config (op : operation) (fuel : nat) (a : Args) (s s' : State)
      (o : outcome) :
  sleep_and_retry fuel (RateLimit_wrapper (call op)) a s = Some (o, s') ->
  calls (self s') = calls (self s) /\ interval (self s') = interval (self s) /\
  raise_on_limit (self s') = raise_on_limit (self s) /\
  clock (self s') = clock (self s).
Proof.
  revert s; induction fuel as [|fuel IH]; intros s; [discriminate|].
  destruct (wrapper_config op a s) as (Hc & Hi & Hr & Hk).
  destruct (RateLimit_wrapper (call op) a s) as [o1 s1] eqn:E. cbn [snd] in *.
  destruct o1 as [v|[e|m|e]].
  - rewrite (sleep_and_retry_through _ fuel _ _ _ _ E) by discriminate.
    intros [= <- <-]; auto.
  - rewrite (sleep_and_retry_caught _ _ _ _ _ _ E).
    destruct (time_remaining e <? 0).
    + intros [= <- <-]; auto.
    + intros H. apply IH in H. cbn [after_sleep self] in H.
      destruct H as (-> & -> & -> & ->); auto.
  - rewrite (sleep_and_retry_through _ fuel _ _ _ _ E) by discriminate.
    intros [= <- <-]; auto.
  - rewrite (sleep_and_retry_through _ fuel _ _ _ _ E) by discriminate.
    intros [= <- <-]; auto.
Qed.

(** One call through the retry wrapper, when it ends: the limiter is still
    as [api_utils] builds it, and the operation was called exactly once
    more, with the outcome the caller gets. *)
Lemma gate_call_summary (op : operation) (fuel : nat) (a : Args) (s s' : State)
      (o : outcome) :
  limiter_ok s ->
  own_failures_only op ->
  sleep_and_retry fuel (RateLimit_wrapper (call op)) a s = Some (o, s') ->
  limiter_ok s' /\
  called (trace (world s')) = called (trace (world s)) ++ [(a, o)].
Proof.
  intros (Hc & Hr & Hm) Hop H.
  destruct (gate_config op fuel a s s' o H) as (Hc' & _ & Hr' & Hk').
  destruct (gate_ends_on_call op fuel a s s' o Hc Hr Hm Hop H) as (rejs & Ht & _).
  split.
  - unfold limiter_ok, monotonic_clock in *. rewrite Hc', Hr', Hk'. auto.
  - rewrite Ht, !called_app, called_rejections. reflexivity.
Qed.

End GateCallers.

(** * Roic_API *)

Section RoicProperties.

Context {Store : Type}.

Local Abbreviation GState := (@State request dict pyexc Store).

Variable http : @operation request dict pyexc Store.

Lemma quarters_loop_threw (fuel : nat) (key : String.string) (year : pyval)
      (qs : list pyval) (acc : list (@value dict)) (g g' : GState) (e : @exn pyexc) :
  quarters_loop http fuel key year qs acc g = Some (Threw e, g') ->
  passes_through e.
Proof.
  revert acc g; induction qs as [|q qs IH]; intros acc g; cbn [quarters_loop];
    [discriminate|].
  destruct (api_request http fuel (mkRequest key year q) g) as [[o g1]|] eqn:E;
    [|discriminate].
  destruct o as [v|x]; [apply IH|].
  pose proof (sleep_and_retry_no_escape _ _ _ _ _ _ E) as Hno.
  destruct x as [x|m|[k| | |]]; try discriminate;
    intros [= <- <-]; split; try discriminate; intros x' Hx; eapply Hno; eauto;
    rewrite Hx; reflexivity.
Qed.

Lemma years_loop_threw (fuel : nat) (key : String.string) (h : heap)
      (entries : list nat) (acc : list (@value dict)) (g g' : GState)
      (e : @exn pyexc) :
  years_loop http fuel key h entries acc g = Some (Threw e, g') ->
  passes_through e.
Proof.
  revert acc g; induction entries as [|r entries IH]; intros acc g;
    cbn [years_loop]; [discriminate|].
  destruct (dict_get "quarter" (h r)) as [pq|];
    [|intros [= <- <-]; split; discriminate].
  destruct (dict_get "year" (h r)) as [y|];
    [|intros [= <- <-]; split; discriminate].
  destruct (quarter_values pq) as [qs|x] eqn:Eq.
  - destruct (quarters_loop http fuel key y qs acc g) as [[[ts|x] g1]|] eqn:E;
      [apply IH| |discriminate].
    intros [= <- <-]. exact (quarters_loop_threw _ _ _ _ _ _ _ _ E).
  - intros [= <- <-]. destruct pq; try discriminate.
    injection Eq as <-. split; discriminate.
Qed.

(** X11. Whatever the limiter and the HTTP layer do, the loops of [get_all]
    never raise the rate limit exception and never raise an HTTP error:
    the first is consumed by the retry wrapper, the second by the [break]. *)
Theorem get_all_loops_never_raise_http (fuel : nat) (h : heap)
        (ticker_years : dict_of (option (list nat))) (acc : list (@value dict))
        (g g' : GState) (e : @exn pyexc) :
  tickers_loop http fuel h ticker_years acc g = Some (Threw e, g') ->
  (forall x, e <> RateLimitExc x) /\ e <> OtherExc HTTPError.
Proof.
  revert acc g; induction ticker_years as [|[key [entries|]] ty IH]; intros acc g;
    cbn [tickers_loop]; [discriminate| |].
  - destruct (years_loop http fuel key h entries acc g) as [[[ts|x] g1]|] eqn:E;
      [apply IH| |discriminate].
    intros [= <- <-]. exact (years_loop_threw _ _ _ _ _ _ _ _ E).
  - intros [= <- <-]. split; discriminate.
Qed.

Lemma kept_nil (acc : list (@value dict)) : kept [] acc acc.
Proof. split; [cbn; rewrite app_nil_r; reflexivity|constructor]. Qed.

Lemma kept_app (r1 r2 : list (request * @outcome dict pyexc))
      (acc mid transcripts : list (@value dict)) :
  kept r1 acc mid -> kept r2 mid transcripts -> kept (r1 ++ r2) acc transcripts.
Proof.
  intros [-> H1] [-> H2]. split.
  - unfold returns. rewrite flat_map_app, app_assoc. reflexivity.
  - apply Forall_app; auto.
Qed.

Lemma quarters_loop_kept (fuel : nat) (key : String.string) (year : pyval)
      (qs : list pyval) (acc ts : list (@value dict)) (g g' : GState) :
  limiter_ok g -> own_failures_only http ->
  quarters_loop http fuel key year qs acc g = Some (Got ts, g') ->
  limiter_ok g' /\
  exists reqs,
    called (trace (world g')) = called (trace (world g)) ++ reqs /\
    kept reqs acc ts.
Proof.
  intros Hok Hop; revert acc g Hok; induction qs as [|q qs IH]; intros acc g Hok;
    cbn [quarters_loop].
  - intros [= <- <-]. split; [exact Hok|]. exists []. rewrite app_nil_r.
    split; [reflexivity|apply kept_nil].
  - destruct (api_request http fuel (mkRequest key year q) g) as [[o g1]|] eqn:E;
      [|discriminate].
    destruct (gate_call_summary _ _ _ _ _ _ Hok Hop E) as [Hok1 Hcalled].
    destruct o as [v|x].
    + intros H. destruct (IH _ _ Hok1 H) as (Hok' & reqs & Hc & Hk).
      split; [exact Hok'|]. eexists. rewrite Hc, Hcalled, <- app_assoc.
      split; [reflexivity|].
      apply (kept_app [(_, Return v)] reqs acc (acc ++ [v])); [|exact Hk].
      split; [reflexivity|repeat constructor].
    + destruct x as [x|m|[k| | |]]; try discriminate.
      intros [= <- <-]. split; [exact Hok1|]. eexists. rewrite Hcalled.
      split; [reflexivity|]. split; [cbn; rewrite app_nil_r; reflexivity|].
      repeat constructor.
Qed.

Lemma years_loop_kept (fuel : nat) (key : String.string) (h : heap)
      (entries : list nat) (acc ts : list (@value dict)) (g g' : GState) :
  limiter_ok g -> own_failures_only http ->
  years_loop http fuel key h entries acc g = Some (Got ts, g') ->
  limiter_ok g' /\
  exists reqs,
    called (trace (world g')) = called (trace (world g)) ++ reqs /\
    kept reqs acc ts.
Proof.
  intros Hok Hop; revert acc g Hok; induction entries as [|r entries IH];
    intros acc g Hok; cbn [years_loop].
  - intros [= <- <-]. split; [exact Hok|]. exists []. rewrite app_nil_r.
    split; [reflexivity|apply kept_nil].
  - destruct (dict_get "quarter" (h r)) as [pq|]; [|discriminate].
    destruct (dict_get "year" (h r)) as [y|]; [|discriminate].
    destruct (quarter_values pq) as [qs|x]; [|discriminate].
    destruct (quarters_loop http fuel key y qs acc g) as [[[mid|x] g1]|] eqn:E;
      [|discriminate|discriminate].
    destruct (quarters_loop_kept _ _ _ _ _ _ _ _ Hok Hop E) as (Hok1 & r1 & Hc1 & Hk1).
    intros H. destruct (IH _ _ Hok1 H) as (Hok' & r2 & Hc2 & Hk2).
    split; [exact Hok'|]. exists (r1 ++ r2). rewrite Hc2, Hc1, <- app_assoc.
    split; [reflexivity|exact (kept_app _ _ _ _ _ Hk1 Hk2)].
Qed.

Lemma tickers_loop_kept (fuel : nat) (h : heap)
      (ticker_years : dict_of (option (list nat)))
      (acc ts : list (@value dict)) (g g' : GState) :
  limiter_ok g -> own_failures_only http ->
  tickers_loop http fuel h ticker_years acc g = Some (Got ts, g') ->
  limiter_ok g' /\
  exists reqs,
    called (trace (world g')) = called (trace (world g)) ++ reqs /\
    kept reqs acc ts.
Proof.
  intros Hok Hop; revert acc g Hok;
    induction ticker_years as [|[key [entries|]] ty IH]; intros acc g Hok;
    cbn [tickers_loop].
  - intros [= <- <-]. split; [exact Hok|]. exists []. rewrite app_nil_r.
    split; [reflexivity|apply kept_nil].
  - destruct (years_loop http fuel key h entries acc g) as [[[mid|x] g2]|] eqn:E;
      [|discriminate|discriminate].
    destruct (years_loop_kept _ _ _ _ _ _ _ _ Hok Hop E) as (Hok2 & r1 & Hc1 & Hk1).
    intros H. destruct (IH _ _ Hok2 H) as (Hok' & r2 & Hc2 & Hk2).
    split; [exact Hok'|]. exists (r1 ++ r2). rewrite Hc2, Hc1, <- app_assoc.
    split; [reflexivity|exact (kept_app _ _ _ _ _ Hk1 Hk2)].
  - discriminate.
Qed.

(** X12. With the limiter as [api_utils] builds it and an HTTP layer that does
    not itself raise the rate limit exception: when the loops of [get_all]
    end with a list of transcripts, the list is exactly what the requests
    returned, in the order they were made, and every request that returned
    nothing raised an HTTP error.  No response is lost and none comes
    twice, however often the limiter made a request wait. *)
Theorem get_all_keeps_every_response (fuel : nat) (h : heap)
        (ticker_years : dict_of (option (list nat)))
        (transcripts : list (@value dict)) (g g' : GState) :
  limiter_ok g -> own_failures_only http ->
  tickers_loop http fuel h ticker_years [] g = Some (Got transcripts, g') ->
  exists reqs,
    called (trace (world g')) = called (trace (world g)) ++ reqs /\
    transcripts = returns reqs /\
    Forall (fun ao => match snd ao with
                      | Return _ => True
                      | Raise e => e = OtherExc HTTPError
                      end) reqs.
Proof.
  intros Hok Hop H.
  destruct (tickers_loop_kept _ _ _ _ _ _ _ Hok Hop H) as (_ & reqs & Hc & [Hk1 Hk2]).
  exists reqs. auto.
Qed.

Variable upper : String.string -> String.string.


Variable page : String.string -> result (list dict).

Lemma cap_tickers_not_str (l : list pyval) :
  (exists x, In x l /\ forall s, x <> VStr s) ->
  cap_tickers upper l = Exc TypeError.
Proof.
  intros (x & Hx & Hs). induction l as [|t l IH]; [destruct Hx|].
  cbn [cap_tickers]. destruct Hx as [->|Hx].
  - destruct x; try reflexivity. exfalso; eapply Hs; reflexivity.
  - destruct t; try reflexivity. rewrite (IH Hx). reflexivity.
Qed.

(** X14. A ticker that is neither a string nor a list of strings makes
    [_available_transcripts] raise [TypeError] before any page is loaded,
    and so [get_all] before any request is made: a list with one element
    that is not a string is enough, a list of lists of tickers for one. *)
Theorem available_transcripts_type_error (fuel : nat) (keys : list String.string)
        (ticker : pyval) (o : Objects) (g : GState) :
  match ticker with
  | VStr _ => False
  | VList l => exists x, In x l /\ forall s, x <> VStr s
  | _ => True
  end ->
  available_transcripts upper page ticker o = (Exc TypeError, o) /\
  get_all upper http page fuel keys ticker o g = Some (Threw (OtherExc TypeError), o, g).
Proof.
  intros H.
  assert (E : available_transcripts upper page ticker o = (Exc TypeError, o)).
  { unfold available_transcripts. destruct ticker as [|z|s|l]; try reflexivity.
    - destruct H.
    - rewrite (cap_tickers_not_str l H). reflexivity. }
  split; [exact E|]. unfold get_all. rewrite E. reflexivity.
Qed.

Lemma cap_tickers_ok (l : list pyval) (cap : list String.string) :
  cap_tickers upper l = Ok cap ->
  Forall2 (fun t c => exists s, t = VStr s /\ c = upper s) l cap.
Proof.
  revert cap; induction l as [|t l IH]; intros cap; cbn [cap_tickers].
  - intros [= <-]; constructor.
  - destruct t as [|z|s|l']; try discriminate.
    destruct (cap_tickers upper l) as [cap'|e]; [|discriminate].
    intros [= <-]. constructor; eauto.
Qed.

Lemma fromkeys_keys (cap : list String.string) :
  NoDup (map fst (fromkeys cap)) /\
  forall k, In k (map fst (fromkeys cap)) <-> In k cap.
Proof.
  unfold fromkeys.
  assert (G : forall cap (d : dict_of (option (list nat))),
             NoDup (map fst d) ->
             NoDup (map fst (fold_left (fun d k => dict_set k None d) cap d)) /\
             forall k, In k (map fst (fold_left (fun d k => dict_set k None d) cap d))
                       <-> In k (map fst d) \/ In k cap).
  { clear cap. induction cap as [|c cap IH]; intros d Hnd; cbn [fold_left].
    - split; [exact Hnd|]. intros k; cbn; tauto.
    - assert (Hnd1 : NoDup (map fst (dict_set c (@None (list nat)) d))).
      { rewrite dict_set_keys. destruct (in_dec _ _ _) as [_|H]; [exact Hnd|].
        apply NoDup_app; [exact Hnd|repeat constructor; intros []|].
        intros x Hx [<-|[]]; contradiction. }
      destruct (IH _ Hnd1) as [Hnd2 Hin]. split; [exact Hnd2|].
      intros k. rewrite Hin, dict_set_keys.
      destruct (in_dec _ _ _) as [H|H]; cbn [In].
      + split; [tauto|]. intros [?|[<-|?]]; auto.
      + rewrite in_app_iff; cbn [In]. tauto. }
  destruct (G cap [] (NoDup_nil _)) as [Hnd Hin].
  split; [exact Hnd|]. intros k; rewrite Hin; cbn; tauto.
Qed.

Lemma pages_loop_ok (tickers : list String.string)
      (dy ty : dict_of (option (list nat))) (o o' : Objects) :
  pages_loop page tickers dy o = (Ok ty, o') ->
  NoDup (map fst dy) ->
  (forall t, In t tickers -> In t (map fst dy)) ->
  map fst ty = map fst dy /\
  visited o' = visited o ++ tickers /\
  (forall k, In (k, None) ty -> In (k, None) dy /\ ~ In k tickers).
Proof.
  revert dy o; induction tickers as [|t tickers IH]; intros dy o; cbn [pages_loop].
  - intros [= <- <-] _ _. rewrite app_nil_r. auto.
  - destruct (page t) as [content|e]; [|discriminate].
    unfold allocate; cbn [next_ref visited objects].
    destruct (years_dict _ _) as [[available h]|e]; [|discriminate].
    intros H Hnd Hin.
    assert (Hkeys : map fst (dict_set t (Some available) dy) = map fst dy).
    { rewrite dict_set_keys. destruct (in_dec _ _ _) as [_|Hn]; [reflexivity|].
      exfalso; apply Hn, Hin; left; reflexivity. }
    apply IH in H.
    + destruct H as (Hk & Hv & Hnone). cbn [visited] in Hv.
      rewrite Hk, Hkeys, Hv, <- app_assoc.
      split; [reflexivity|]. split; [reflexivity|].
      intros k Hkn. destruct (Hnone k Hkn) as [Hd Hnot].
      apply dict_set_entries in Hd; [|exact Hnd].
      destruct Hd as [[_ Hd]|[Hne Hd]]; [discriminate|].
      split; [exact Hd|]. intros [->|Hk']; [congruence|contradiction].
    + rewrite Hkeys; exact Hnd.
    + intros t' Ht'. rewrite Hkeys. apply Hin; right; exact Ht'.
Qed.

(** X15. When [_available_transcripts] returns, it has loaded the page of every
    ticker given, in upper case and in the order given, a ticker given
    twice being loaded twice; its result has each of these tickers once as
    a key, and under every key a list, never the [None] the dictionary was
    first filled with. *)
Theorem available_transcripts_result (ticker : pyval) (o o' : Objects)
        (ticker_years : dict_of (option (list nat))) :
  available_transcripts upper page ticker o = (Ok ticker_years, o') ->
  exists cap,
    Forall2 (fun t c => exists s, t = VStr s /\ c = upper s)
            (match ticker with VList l => l | _ => [ticker] end) cap /\
    visited o' = visited o ++ cap /\
    NoDup (map fst ticker_years) /\
    (forall k, In k (map fst ticker_years) <-> In k cap) /\
    Forall (fun kv => snd kv <> None) ticker_years.
Proof.
  unfold available_transcripts.
  set (l := match ticker with VList l => l | _ => [ticker] end).
  assert (Hl : match ticker with
               | VStr s => Ok [VStr s] | VList l => Ok l | _ => Exc TypeError
               end = Ok l \/
               match ticker with
               | VStr s => Ok [VStr s] | VList l => Ok l | _ => Exc TypeError
               end = Exc TypeError)
    by (destruct ticker; auto).
  destruct Hl as [->| ->]; [|discriminate].
  destruct (cap_tickers upper l) as [cap|e] eqn:Ecap; [|discriminate].
  intros H. destruct (fromkeys_keys cap) as [Hnd Hin].
  apply pages_loop_ok in H; [|exact Hnd|intros t Ht; apply Hin, Ht].
  destruct H as (Hk & Hv & Hnone).
  exists cap. split; [exact (cap_tickers_ok _ _ Ecap)|]. split; [exact Hv|].
  rewrite Hk. split; [exact Hnd|]. split; [exact Hin|].
  apply Forall_forall. intros [k v] Hkv. cbn [snd]. intros ->.
  destruct (Hnone k Hkv) as [Hd Hnot]. apply Hnot, Hin.
  apply (in_map fst) in Hd. exact Hd.
Qed.

Lemma dicts_of_some (transcripts : list (@value dict)) (ds : list dict) :
  dicts_of transcripts = Some ds -> transcripts = map (@PyData dict) ds.
Proof.
  revert ds; induction transcripts as [|[|d] ts IH]; intros ds; cbn [dicts_of].
  - intros [= <-]; reflexivity.
  - discriminate.
  - destruct (dicts_of ts) as [ds'|]; [|discriminate].
    intros [= <-]. cbn [map]. rewrite (IH ds' eq_refl). reflexivity.
Qed.

(** X16. When [get_all] returns its dictionary, with the limiter as [api_utils]
    builds it: every request that returned gave a dictionary, and under
    each key that one of these has, the result lists what each of them
    holds for the key, [None] where it has none, in the order the requests
    were made.  The requests that gave nothing raised an HTTP error. *)
Theorem get_all_result (fuel : nat) (keys : list String.string) (ticker : pyval)
        (o o' : Objects) (g g' : GState) (merged : dict_of (list pyval)) :
  limiter_ok g -> own_failures_only http ->
  get_all upper http page fuel keys ticker o g = Some (Got merged, o', g') ->
  exists reqs ds,
    called (trace (world g')) = called (trace (world g)) ++ reqs /\
    returns reqs = map (@PyData dict) ds /\
    Forall (fun ao => match snd ao with
                      | Return _ => True
                      | Raise e => e = OtherExc HTTPError
                      end) reqs /\
    (iterates_keys keys ds ->
     forall k, (exists d, In d ds /\ dict_get k d <> None) ->
               dict_get k merged = Some (map (dict_get_none k) ds)).
Proof.
  intros Hok Hop. unfold get_all.
  destruct (available_transcripts upper page ticker o) as [[ty|x] o1]; [|discriminate].
  destruct (tickers_loop http fuel (objects o1) ty [] g) as [[[ts|x] g1]|] eqn:E;
    [|discriminate|discriminate].
  destruct (tickers_loop_kept _ _ _ _ _ _ _ Hok Hop E) as (_ & reqs & Hc & [Hk1 Hk2]).
  unfold merge_transcripts. destruct (dicts_of ts) as [ds|] eqn:Ed; [|discriminate].
  intros [= <- <- <-]. exists reqs, ds.
  split; [exact Hc|]. split; [rewrite <- (dicts_of_some _ _ Ed); symmetry; exact Hk1|].
  split; [exact Hk2|].
  intros [Hnd Hkeys] k Hex. unfold merge_list_dict.
  assert (Hne : ds <> []).
  { destruct Hex as (d & Hd & _). intros E0; rewrite E0 in Hd; destruct Hd. }
  rewrite (merge_outer keys ds [] k Hnd Hne).
  destruct (in_dec String.string_dec k keys) as [_|Hout]; [reflexivity|].
  exfalso; apply Hout, Hkeys, Hex.
Qed.

End RoicProperties.

(** * years_dict feeding get_all *)

(** X17. For transcripts as the site gives them, with integers for quarters:
    what [get_all] goes through for a year, read from the dictionary
    [years_dict] returned for it, is the quarters of all the transcripts of
    that year, each once, in the order of the input; grouping them loses
    none. *)
Theorem years_dict_feeds_get_all (content : list nat) (h : heap) (f : nat) :
  NoDup content ->
  (forall r, In r content -> complete (h r) = true) ->
  (forall r, In r content -> exists z, dict_get "quarter" (h r) = Some (VInt z)) ->
  In f (firsts h content) ->
  exists h' pos_quarters,
    years_dict content h = Ok (firsts h content, h') /\
    dict_get "quarter" (h' f) = Some pos_quarters /\
    quarter_values pos_quarters = Ok (quarters_in h (year_val h f) content).
Proof.
  intros Hnd Hall Hint Hf.
  destruct (years_dict_complete content h Hnd Hall) as (h' & Hres & _ & Hq & _).
  exists h', (grouped (quarters_in h (year_val h f) content)).
  split; [exact Hres|]. split; [exact (Hq f Hf)|].
  pose proof (firsts_incl _ _ _ Hf) as Hfc.
  destruct (complete_fields _ (Hall f Hfc)) as (? & y & ? & _ & Hy & _ & Hh & _).
  assert (Hin : In (quarter_val h f) (quarters_in h (year_val h f) content)).
  { apply quarters_in_member; [exact Hfc|]. apply key_eqb_refl.
    unfold year_val; rewrite Hy; exact Hh. }
  assert (Hints : Forall (fun q => exists z, q = VInt z)
                         (quarters_in h (year_val h f) content)).
  { apply Forall_forall. intros q Hq'. unfold quarters_in in Hq'.
    apply in_flat_map in Hq'. destruct Hq' as (r & Hr & Hq').
    destruct (key_eqb _ _); [|destruct Hq'].
    destruct Hq' as [<-|[]]. destruct (Hint r Hr) as (z & Hz).
    exists z. unfold quarter_val; rewrite Hz; reflexivity. }
  destruct (quarters_in h (year_val h f) content) as [|q [|q' qs]].
  - destruct Hin.
  - inversion Hints as [|? ? (z & ->) _]; subst. reflexivity.
  - reflexivity.
Qed.

(** * google_href *)

Lemma replace_spaces_no_space (s : String.string) :
  has_char " "%char (replace_spaces s) = false.
Proof.
  induction s as [|c s IH]; cbn [replace_spaces has_char]; [reflexivity|].
  rewrite IH, orb_false_r.
  destruct (Ascii.eqb c " ") eqn:E; [reflexivity|].
  rewrite Ascii.eqb_sym; exact E.
Qed.

Lemma replace_spaces_length (s : String.string) :
  String.length (replace_spaces s) = String.length s.
Proof. induction s as [|c s IH]; cbn; congruence. Qed.

Lemma replace_spaces_append (s t : String.string) :
  replace_spaces (String.append s t)
  = String.append (replace_spaces s) (replace_spaces t).
Proof. induction s as [|c s IH]; cbn; congruence. Qed.

(** X18. The search asked for has no space left in it, whatever the name of the
    company: it is the name with its spaces turned into [+], followed by
    [+earnings+call]. *)
Theorem search_query_no_space (company : String.string) :
  has_char " "%char (search_query company) = false /\
  search_query company = String.append (replace_spaces company) "+earnings+call".
Proof.
  unfold search_query. split; [apply replace_spaces_no_space|].
  apply replace_spaces_append.
Qed.

Lemma prefix_append (p s : String.string) :
  String.prefix p s = true <-> exists rest, s = String.append p rest.
Proof.
  revert s; induction p as [|c p IH]; intros s.
  - split; [intros _; exists s; reflexivity|]. intros _. destruct s; reflexivity.
  - destruct s as [|c' s]; cbn [String.prefix String.append].
    + split; [discriminate|intros (r & H); discriminate].
    + destruct (Ascii.ascii_dec c c') as [->|Hne].
      * rewrite IH. split; intros (r & H); exists r; congruence.
      * split; [discriminate|]. intros (r & H); congruence.
Qed.

Lemma up_to_amp_split (s : String.string) :
  has_char "&"%char (up_to_amp s) = false /\
  exists post,
    s = String.append (up_to_amp s) post /\
    (post = String.EmptyString \/ exists post', post = String.String "&" post').
Proof.
  induction s as [|c s (Hno & post & Hs & Hpost)]; cbn [up_to_amp].
  - split; [reflexivity|]. exists String.EmptyString; auto.
  - destruct (Ascii.eqb c "&") eqn:E.
    + apply Ascii.eqb_eq in E; subst c. split; [reflexivity|].
      exists (String.String "&" s). split; [reflexivity|]. right; eauto.
    + cbn [has_char]. rewrite Ascii.eqb_sym, E, Hno. split; [reflexivity|].
      exists post. cbn [String.append]. split; [congruence|exact Hpost].
Qed.

Lemma up_to_amp_http (s : String.string) :
  String.prefix "http" s = true -> String.prefix "http" (up_to_amp s) = true.
Proof.
  intros H. apply prefix_append in H. destruct H as (rest & ->).
  apply prefix_append. exists (up_to_amp rest). reflexivity.
Qed.

(** What the search finds in a link: the match starts with [http], has no
    [&], stands in the link between a beginning in which [http] does not
    start and an end that is empty or starts with [&]. *)
Lemma search_http_some (link m : String.string) :
  search_http link = Some m ->
  String.prefix "http" m = true /\
  has_char "&"%char m = false /\
  exists pre post,
    link = String.append pre (String.append m post) /\
    (post = String.EmptyString \/ exists post', post = String.String "&" post') /\
    forall p1 p2, pre = String.append p1 p2 -> p2 <> String.EmptyString ->
                  String.prefix "http" (String.append p2 (String.append m post)) = false.
Proof.
  revert m; induction link as [|c rest IH]; intros m; cbn [search_http];
    [discriminate|].
  destruct (String.prefix "http" (String.String c rest)) eqn:E.
  - intros [= <-].
    destruct (up_to_amp_split (String.String c rest)) as (Hno & post & Hs & Hpost).
    split; [exact (up_to_amp_http (String.String c rest) E)|]. split; [exact Hno|].
    exists String.EmptyString, post. split; [exact Hs|]. split; [exact Hpost|].
    intros p1 p2 Hp Hne. destruct p1; cbn in Hp; [congruence|discriminate].
  - intros H. destruct (IH m H) as (Hp & Hno & pre & post & Hs & Hpost & Hleft).
    split; [exact Hp|]. split; [exact Hno|].
    exists (String.String c pre), post. split; [cbn; congruence|].
    split; [exact Hpost|].
    intros p1 p2 Hpre Hne. destruct p1 as [|c1 p1]; cbn in Hpre.
    + subst p2. cbn [String.append]. rewrite <- Hs. exact E.
    + injection Hpre as -> ->. exact (Hleft p1 p2 eq_refl Hne).
Qed.

Lemma search_http_none (link : String.string) :
  search_http link = None ->
  forall pre post, link <> String.append pre (String.append "http" post).
Proof.
  induction link as [|c rest IH]; cbn [search_http].
  - intros _ [|c pre] post; discriminate.
  - destruct (String.prefix "http" (String.String c rest)) eqn:E; [discriminate|].
    intros H [|c' pre] post Heq.
    + cbn [String.append] in Heq.
      assert (String.prefix "http" (String.String c rest) = true); [|congruence].
      apply prefix_append. exists post. exact Heq.
    + cbn [String.append] in Heq. injection Heq as -> Heq.
      exact (IH H pre post Heq).
Qed.

(** X19. When the links are cleaned, there is one clean link for each link
    found, in the same order, and each is what [http[^&]*] first matches in
    its link: it starts with [http], holds no [&], and is cut out of the
    link where [http] first stands, up to the first [&] or the end. *)
Theorem clean_links_result (earnings_links : list (option String.string))
        (cleaned : list String.string) :
  clean_links earnings_links = Ok cleaned ->
  Forall2 (fun href m =>
             exists link pre post,
               href = Some link /\
               link = String.append pre (String.append m post) /\
               String.prefix "http" m = true /\
               has_char "&"%char m = false /\
               (post = String.EmptyString \/
                exists post', post = String.String "&" post') /\
               forall p1 p2, pre = String.append p1 p2 -> p2 <> String.EmptyString ->
                             String.prefix "http" (String.append p2 (String.append m post))
                             = false)
          earnings_links cleaned.
Proof.
  revert cleaned; induction earnings_links as [|[link|] links IH]; intros cleaned;
    cbn [clean_links].
  - intros [= <-]; constructor.
  - destruct (search_http link) as [m|] eqn:E; [|discriminate].
    destruct (clean_links links) as [l|e]; [|discriminate].
    intros [= <-]. constructor; [|apply IH; reflexivity].
    destruct (search_http_some _ _ E) as (Hp & Hno & pre & post & Hs & Hpost & Hleft).
    exists link, pre, post. auto 10.
  - discriminate.
Qed.

(** X20. A link in which [http] stands nowhere makes the cleaning raise
    [AttributeError], when every tag before it gave a link with [http] in
    it; an [href] that is [None] makes it raise [TypeError]. *)
Theorem clean_links_no_match (before after : list (option String.string))
        (good : list String.string) (href : option String.string) :
  clean_links before = Ok good ->
  (href = None -> clean_links (before ++ href :: after) = Exc TypeError) /\
  (forall link, href = Some link ->
                (forall pre post, link <> String.append pre (String.append "http" post)) ->
                clean_links (before ++ href :: after) = Exc AttributeError).
Proof.
  revert good; induction before as [|[b|] before IH]; intros good; cbn [clean_links app].
  - intros _. split; [intros ->; reflexivity|].
    intros link -> Hno. destruct (search_http link) as [m|] eqn:E; [|reflexivity].
    destruct (search_http_some _ _ E) as (Hp & _ & pre & post & Hs & _).
    apply prefix_append in Hp. destruct Hp as (r & ->).
    exfalso. apply (Hno pre (String.append r post)).
    rewrite Hs. cbn. reflexivity.
  - destruct (search_http b) as [m|]; [|discriminate].
    destruct (clean_links before) as [l|e] eqn:E; [|discriminate].
    intros _. destruct (IH l eq_refl) as [H1 H2]. split.
    + intros Hn. rewrite (H1 Hn). reflexivity.
    + intros link Hl Hno. rewrite (H2 link Hl Hno). reflexivity.
  - discriminate.
Qed.

(** * The collector at work on concrete data *)

(** The elements of a list given in full are distinct. *)
Ltac distinct :=
  repeat (constructor;
          [cbn; let H := fresh in
                intros H; repeat (destruct H as [H|H]; [discriminate H|]); exact H|]);
  constructor.

(** A property of every element of a list given in full. *)
Ltac each_in tac :=
  let r := fresh in
  let H := fresh in
  intros r H; cbn in H;
  repeat (destruct H as [<-|H]; [tac|]); destruct H.

Section CollectedWitnesses.

Import Collected.

Lemma sample_content_distinct : NoDup sample_content.
Proof. unfold sample_content. distinct. Qed.

Lemma sample_content_complete (r : nat) :
  In r sample_content -> complete (sample_heap r) = true.
Proof. revert r. each_in reflexivity. Qed.

Lemma sample_beginning_distinct : NoDup [0; 1]%nat.
Proof. distinct. Qed.

Lemma sample_beginning_complete (r : nat) :
  In r [0; 1]%nat -> complete (sample_heap r) = true.
Proof. revert r. each_in reflexivity. Qed.

Lemma sample_limiter_ok : limiter_ok sample_limiter.
Proof. repeat split. cbn. lia. Qed.

Lemma site_own_failures : own_failures_only site.
Proof.
  intros a st e. unfold site. cbn [fst].
  destruct (req_quarter a) as [|[|[p|[p|p|]|]|p]|s|l]; discriminate.
Qed.

(** The four calls of the sample page give two dictionaries, for 2022 and
    2021, each year once. *)
Lemma years_dict_one_per_year_witness :
  exists h',
    years_dict sample_content sample_heap = Ok ([0; 3]%nat, h') /\
    (forall f1 f2, In f1 [0; 3]%nat -> In f2 [0; 3]%nat ->
                   dict_get "year" (h' f1) = dict_get "year" (h' f2) -> f1 = f2) /\
    (forall r, In r sample_content ->
               exists f, In f [0; 3]%nat /\
                         dict_get "year" (h' f) = dict_get "year" (sample_heap r)).
Proof.
  exact (years_dict_one_per_year sample_content sample_heap
           sample_content_distinct sample_content_complete).
Defined.

(** The dictionary of 2022 lists the quarters 3, 2 and 1. *)
Lemma years_dict_quarters_witness :
  exists h',
    years_dict sample_content sample_heap = Ok ([0; 3]%nat, h') /\
    dict_get "quarter" (h' 0%nat) = Some (VList [VInt 3; VInt 2; VInt 1]).
Proof.
  exact (years_dict_quarters sample_content sample_heap 0%nat
           sample_content_distinct sample_content_complete
           (or_introl eq_refl)).
Defined.

(** The four calls of the sample page lose their dates. *)
Lemma years_dict_pops_date_witness :
  exists refs h',
    years_dict sample_content sample_heap = Ok (refs, h') /\
    (forall r, In r sample_content -> dict_get "date" (h' r) = None) /\
    (forall r k, k <> "date" -> k <> "quarter" ->
                 dict_get k (h' r) = dict_get k (sample_heap r)) /\
    (forall r, ~ In r sample_content -> h' r = sample_heap r).
Proof.
  exact (years_dict_pops_date sample_content sample_heap
           sample_content_distinct sample_content_complete).
Defined.

(** After two calls of 2022, a dictionary without a date, and one of 2022
    without a quarter. *)
Lemma years_dict_missing_key_witness :
  years_dict ([0; 1] ++ 4 :: [2; 3])%nat sample_heap = Exc (KeyError "date") /\
  years_dict ([0; 1] ++ 5 :: [2; 3])%nat sample_heap = Exc (KeyError "quarter").
Proof.
  split.
  - refine (proj1 (years_dict_missing_key [0; 1]%nat [2; 3]%nat 4%nat sample_heap
                     sample_beginning_distinct sample_beginning_complete _) eq_refl).
    cbn; intros [H|[H|H]]; [discriminate H|discriminate H|exact H].
  - refine (proj2 (proj2 (proj2
              (years_dict_missing_key [0; 1]%nat [2; 3]%nat 5%nat sample_heap
                 sample_beginning_distinct sample_beginning_complete _)))
              (VInt 2022) 0%nat _ eq_refl eq_refl (or_introl eq_refl) eq_refl).
    + cbn; intros [H|[H|H]]; [discriminate H|discriminate H|exact H].
    + discriminate.
Defined.

(** The first call of the sample page listed again after the second. *)
Lemma years_dict_same_object_twice_witness :
  years_dict ([0; 1] ++ 0 :: [2; 3])%nat sample_heap = Exc (KeyError "date").
Proof.
  exact (years_dict_same_object_twice [0; 1]%nat [2; 3]%nat 0%nat sample_heap
           sample_beginning_distinct sample_beginning_complete (or_introl eq_refl)).
Defined.

(** Two responses, the second without a year: the column of the years has
    [None] in its place. *)
Lemma merge_list_dict_columns_witness :
  dict_get "year" (merge_list_dict (union_keys sample_dicts) sample_dicts)
  = Some [VInt 2022; VNone].
Proof.
  refine (proj1 (merge_list_dict_columns (union_keys sample_dicts) sample_dicts "year"
                   (union_keys_iterates sample_dicts)) _).
  exists (nth 0 sample_dicts []). split; [left; reflexivity|discriminate].
Defined.

(** Two responses merged over two of their keys: a column of two. *)
Lemma merge_list_dict_rectangular_witness :
  length [VInt 2022; VNone] = length sample_dicts.
Proof.
  refine (merge_list_dict_rectangular ["symbol"; "year"] sample_dicts "year"
            [VInt 2022; VNone] _ eq_refl).
  distinct.
Defined.

(** Two granted calls at 3 and 6 seconds, the third at 9 is refused and
    told to wait 1 second. *)
Lemma wait_at_most_interval_witness :
  fst (locked_block after_two_requests) = Raised (RateLimitException_init 1) /\
  0 <= elapsed_now after_two_requests /\
  time_remaining (RateLimitException_init 1) <= 10 /\
  0 < time_remaining (RateLimitException_init 1).
Proof.
  assert (Hrefused : fst (locked_block after_two_requests)
                     = Raised (RateLimitException_init 1))
    by (vm_compute; reflexivity).
  split; [exact Hrefused|].
  pose proof (wait_at_most_interval site 2 10 true ticking_world two_requests
                (RateLimitException_init 1)) as H.
  cbv zeta in H.
  assert (Hclock : nondecreasing (mono ticking_world))
    by (intros i j Hij; unfold ticking_world; cbn [mono]; lia).
  destruct (H Hclock) as [H0 H1]. split; [exact H0|].
  destruct (H1 Hrefused) as [H2 H3]. split; [exact H2|]. apply H3. lia.
Defined.

(** The loops stopped by a ticker whose page was never read: the
    exception is a [TypeError]. *)
Lemma get_all_loops_never_raise_http_witness :
  (forall x, @OtherExc pyexc TypeError <> RateLimitExc x) /\
  @OtherExc pyexc TypeError <> OtherExc HTTPError.
Proof.
  refine (get_all_loops_never_raise_http site 5 (objects (snd sample_available))
            (sample_ticker_years ++ [("DUK", None)]) [] sample_limiter
            (final interrupted_loops) (OtherExc TypeError) _).
  vm_compute; reflexivity.
Defined.

(** The loops over the two tickers: four requests, of which the one for a
    second quarter raised an HTTP error and the three others are kept. *)
Lemma get_all_keeps_every_response_witness :
  exists reqs,
    called (trace (world (final sample_loops)))
      = called (trace (world sample_limiter)) ++ reqs /\
    map (@PyData dict)
        [[("symbol", VStr "XOM"); ("year", VInt 2022); ("quarter", VInt 3)];
         [("symbol", VStr "XOM"); ("year", VInt 2021); ("quarter", VInt 4)];
         [("symbol", VStr "CVX"); ("year", VInt 2022); ("quarter", VInt 3)]]
      = returns reqs /\
    Forall (fun ao => match snd ao with
                      | Return _ => True
                      | Raise e => e = OtherExc HTTPError
                      end) reqs.
Proof.
  refine (get_all_keeps_every_response site 5 (objects (snd sample_available))
            sample_ticker_years _ sample_limiter (final sample_loops)
            sample_limiter_ok site_own_failures _).
  vm_compute; reflexivity.
Defined.


(** The batches of [collect_data.py]: a list of lists. *)
Lemma available_transcripts_type_error_witness :
  available_transcripts ascii_upper sample_page batches no_objects
    = (Exc TypeError, no_objects) /\
  get_all ascii_upper site sample_page 5 sample_keys batches no_objects sample_limiter
    = Some (Threw (OtherExc TypeError), no_objects, sample_limiter).
Proof.
  refine (available_transcripts_type_error site ascii_upper sample_page 5 sample_keys
            batches no_objects sample_limiter _).
  cbn. eexists. split; [left; reflexivity|discriminate].
Defined.

(** Two tickers in lower case: both pages are loaded, in upper case. *)
Lemma available_transcripts_result_witness :
  exists cap,
    Forall2 (fun t c => exists s, t = VStr s /\ c = ascii_upper s)
            [VStr "xom"; VStr "cvx"] cap /\
    visited (snd sample_available) = visited no_objects ++ cap /\
    NoDup (map fst sample_ticker_years) /\
    (forall k, In k (map fst sample_ticker_years) <-> In k cap) /\
    Forall (fun kv => snd kv <> None) sample_ticker_years.
Proof.
  refine (available_transcripts_result ascii_upper sample_page two_tickers
            no_objects (snd sample_available) sample_ticker_years _).
  vm_compute; reflexivity.
Defined.

(** The two tickers collected: the columns of the result. *)
Lemma get_all_result_witness :
  exists reqs ds,
    called (trace (world (final
      (match collected with
       | Some (r, _, g) => Some (r, g)
       | None => None
       end))))
      = called (trace (world sample_limiter)) ++ reqs /\
    returns reqs = map (@PyData dict) ds /\
    Forall (fun ao => match snd ao with
                      | Return _ => True
                      | Raise e => e = OtherExc HTTPError
                      end) reqs /\
    (iterates_keys sample_keys ds ->
     forall k, (exists d, In d ds /\ dict_get k d <> None) ->
               dict_get k
                 [("symbol", [VStr "XOM"; VStr "XOM"; VStr "CVX"]);
                  ("year", [VInt 2022; VInt 2021; VInt 2022]);
                  ("quarter", [VInt 3; VInt 4; VInt 3])]
               = Some (map (dict_get_none k) ds)).
Proof.
  refine (get_all_result site ascii_upper sample_page 5 sample_keys two_tickers
            no_objects (snd sample_available) sample_limiter _ _
            sample_limiter_ok site_own_failures _).
  vm_compute; reflexivity.
Defined.

(** What [get_all] goes through for 2022 on the sample page. *)
Lemma years_dict_feeds_get_all_witness :
  exists h' pos_quarters,
    years_dict sample_content sample_heap = Ok ([0; 3]%nat, h') /\
    dict_get "quarter" (h' 0%nat) = Some pos_quarters /\
    quarter_values pos_quarters = Ok [VInt 3; VInt 2; VInt 1].
Proof.
  refine (years_dict_feeds_get_all sample_content sample_heap 0%nat
            sample_content_distinct sample_content_complete _ (or_introl eq_refl)).
  each_in ltac:(eexists; reflexivity).
Defined.

(** Two links of a page of results, cleaned. *)
Lemma clean_links_result_witness :
  Forall2 (fun href m =>
             exists link pre post,
               href = Some link /\
               link = String.append pre (String.append m post) /\
               String.prefix "http" m = true /\
               has_char "&"%char m = false /\
               (post = String.EmptyString \/
                exists post', post = String.String "&" post') /\
               forall p1 p2, pre = String.append p1 p2 -> p2 <> String.EmptyString ->
                             String.prefix "http" (String.append p2 (String.append m post))
                             = false)
          sample_links
          ["https://ir.tesla.com/press"; "http://example.org/q3-call"].
Proof.
  exact (clean_links_result sample_links
           ["https://ir.tesla.com/press"; "http://example.org/q3-call"] eq_refl).
Defined.

(** After the two links, a tag without [href], or a link of the page
    itself. *)
Lemma clean_links_no_match_witness :
  clean_links (sample_links ++ None :: []) = Exc TypeError /\
  clean_links (sample_links ++ Some inner_link :: []) = Exc AttributeError.
Proof.
  split.
  - exact (proj1 (clean_links_no_match sample_links []
                    ["https://ir.tesla.com/press"; "http://example.org/q3-call"]
                    None eq_refl) eq_refl).
  - exact (proj2 (clean_links_no_match sample_links []
                    ["https://ir.tesla.com/press"; "http://example.org/q3-call"]
                    (Some inner_link) eq_refl)
                 inner_link eq_refl (search_http_none inner_link eq_refl)).
Defined.

End CollectedWitnesses.
